(** * Source maps of the MIPS EVM tooling: [mipsevm/solutil.go]

    A shallow embedding of the Solidity source-map decoder
    ([parseInstrMapping]), of the index builder ([ParseSourceMap]) and of
    the lookup ([Info]), with the properties of the design document
    settled against it.

    Conventions of the embedding:
    - Go [string]s are byte sequences: Rocq [string]s (8-bit [ascii]).
    - [int32] and [uint32] values are [Z], with the conversions' wrap-around
      written out ([int32], [uint32]); [byte]s are [Byte.byte].
    - Slices are lists; a [nil] slice of an inner table is [None].
    - [int] indices and lengths are [nat] (they never leave [0, 2^63)).
    - A run-time panic (index out of range) is the result [Panics]. *)

From Stdlib Require Import ZArith Lia Ascii String.
From Stdlib.Strings Require Import Byte.
From stdpp Require Import base numbers list strings.

Local Open Scope Z_scope.

(** ** Fixed-width integers *)

Module Width.

(** Conversion to [int32]: keep the low 32 bits, read as two's complement. *)
Definition int32 (z : Z) : Z := (z + 2 ^ 31) mod 2 ^ 32 - 2 ^ 31.

(** Conversion to [uint32]: keep the low 32 bits. *)
Definition uint32 (z : Z) : Z := z mod 2 ^ 32.

(** Conversion to [uint64]. *)
Definition uint64 (z : Z) : Z := z mod 2 ^ 64.

(** Conversion to [uint8], the arithmetic of [byte]. *)
Definition uint8 (z : Z) : Z := z mod 2 ^ 8.

Definition byteZ (b : byte) : Z := Z.of_N (Byte.to_N b).

Definition asciiZ (c : ascii) : Z := Z.of_N (N_of_ascii c).

End Width.
Import Width.

(** ** The Go library functions the source calls *)

Module GoStrings.

(** [strings.Split(s, sep)] for a one-byte separator: the substrings
    between the separators; a string without separator is returned alone,
    and so is the empty string. *)
Fixpoint Split (s : string) (sep : ascii) : list string :=
  match s with
  | EmptyString => [EmptyString]
  | String c rest =>
      if Ascii.eqb c sep then EmptyString :: Split rest sep
      else match Split rest sep with
           | field :: fields => String c field :: fields
           | [] => [String c EmptyString]
           end
  end.

(** [strings.HasPrefix(s, prefix)]. *)
Definition HasPrefix (s prefix : string) : bool := String.prefix prefix s.

End GoStrings.
Import GoStrings.

Module Strconv.

(** The two causes a [*strconv.NumError] wraps. *)
Inductive numErr := ErrSyntax | ErrRange.

Definition isDigit (c : ascii) : bool :=
  (asciiZ "0" <=? asciiZ c) && (asciiZ c <=? asciiZ "9").

(** The digit loop of [strconv.ParseUint(s, 10, 32)]; [n] is the [uint64]
    accumulator. A byte that is not a decimal digit is a syntax error
    (a letter is a digit value of 10 or more, refused in base 10; an
    underscore is accepted in base 0 only). The loop returns at the first
    overflow, whatever follows. *)
Fixpoint parseUintLoop (s : string) (n : Z) : Z * option numErr :=
  let cutoff := (2 ^ 64 - 1) / 10 + 1 in
  let maxVal := 2 ^ 32 - 1 in
  match s with
  | EmptyString => (n, None)
  | String c rest =>
      if isDigit c then
        let d := uint8 (asciiZ c - asciiZ "0") in
        if cutoff <=? n then (maxVal, Some ErrRange)
        else
          let n := uint64 (n * 10) in
          let n1 := uint64 (n + d) in
          if (n1 <? n) || (maxVal <? n1) then (maxVal, Some ErrRange)
          else parseUintLoop rest n1
      else (0, Some ErrSyntax)
  end.

Definition ParseUint (s : string) : Z * option numErr :=
  match s with
  | EmptyString => (0, Some ErrSyntax)
  | _ => parseUintLoop s 0
  end.

(** [strconv.ParseInt(s, 10, 32)]: the value and, on failure, the cause;
    the [NumError] itself carries the function name and the input [s]
    (sign included), which the caller below adds. *)
Definition ParseInt (s : string) : Z * option numErr :=
  match s with
  | EmptyString => (0, Some ErrSyntax)
  | String c rest =>
      let neg := Ascii.eqb c "-" in
      let s' := if Ascii.eqb c "+" then rest else if neg then rest else s in
      let '(un, err) := ParseUint s' in
      match err with
      | Some ErrSyntax => (0, Some ErrSyntax)
      | _ =>
          let cutoff := 2 ^ 31 in
          if negb neg && (cutoff <=? un) then (cutoff - 1, Some ErrRange)
          else if neg && (cutoff <? un) then (- cutoff, Some ErrRange)
          else (if neg then - un else un, None)
      end
  end.

End Strconv.
Import Strconv.

(** ** Errors *)

(** The error values the package builds: [fmt.Errorf] with its format, the
    [*strconv.NumError] of [ParseInt], and the two wrappers ([%w]) of
    [ParseSourceMap]. The wrapper of a read failure holds the source's
    index and name; the wrapper of a decoding failure holds the cause only. *)
Inductive error :=
| UnexpectedLength (n : nat)
| NumError (Func Num : string) (Err : numErr)
| FailedToReadSource (i : nat) (s : string)
| FailedToParseInstr (cause : error).

(** ** Data *)

Record LineCol := { Line : Z; Col : Z }.

(** The fields [S], [L], [F], [J], [M] of the source carry an underscore
    here: [S] is the successor of [nat]. *)
Record InstrMapping := {
  S_ : Z;     (* start offset in bytes within source *)
  L_ : Z;     (* length in bytes within source *)
  F_ : Z;     (* file index of source *)
  J_ : byte;  (* jump type (i=into, o=out, -=regular) *)
  M_ : Z      (* modifier depth *)
}.

(** The zero value [InstrMapping{}]. *)
Definition zeroInstr : InstrMapping :=
  {| S_ := 0; L_ := 0; F_ := 0; J_ := x00; M_ := 0 |}.

Definition zeroLineCol : LineCol := {| Line := 0; Col := 0 |}.

Definition setS (m : InstrMapping) (v : Z) := {| S_ := v; L_ := L_ m; F_ := F_ m; J_ := J_ m; M_ := M_ m |}.
Definition setL (m : InstrMapping) (v : Z) := {| S_ := S_ m; L_ := v; F_ := F_ m; J_ := J_ m; M_ := M_ m |}.
Definition setF (m : InstrMapping) (v : Z) := {| S_ := S_ m; L_ := L_ m; F_ := v; J_ := J_ m; M_ := M_ m |}.
Definition setJ (m : InstrMapping) (v : byte) := {| S_ := S_ m; L_ := L_ m; F_ := F_ m; J_ := v; M_ := M_ m |}.
Definition setM (m : InstrMapping) (v : Z) := {| S_ := S_ m; L_ := L_ m; F_ := F_ m; J_ := J_ m; M_ := v |}.

(** ** The decoder of one record *)

Definition isEmpty (s : string) : bool :=
  match s with EmptyString => true | _ => false end.

(** The closure [parse] of [parseInstrMapping]: it stores the error of the
    call in [err] (also when there is none) and returns the value as
    [int32]. *)
Definition parse (x : string) : Z * option error :=
  let '(p, e) := ParseInt x in
  (int32 p, option_map (NumError "ParseInt" x) e).

(** [data[k]], read only under a check of [len(data)]. *)
Definition field (data : list string) (k : nat) : string :=
  nth k data EmptyString.

(** The first byte of a non-empty string, [x[0]]. *)
Definition firstByte (x : string) : byte :=
  match x with
  | EmptyString => x00
  | String c _ => byte_of_ascii c
  end.

(** [err != nil]. *)
Definition notNil (err : option error) : bool :=
  match err with Some _ => true | None => false end.

Definition parseInstrMapping (last : InstrMapping) (v : string)
  : InstrMapping * option error :=
  let data := Split v ":" in
  let out := last in
  if (length data <? 1)%nat then (out, None)
  else if (5 <? length data)%nat then (out, Some (UnexpectedLength (length data)))
  else
    let err : option error := None in
    let '(out, err) :=
      if negb (isEmpty (field data 0))
      then let '(p, e) := parse (field data 0) in (setS out p, e)
      else (out, err) in
    if (length data <? 2)%nat || notNil err then (out, err)
    else
    let '(out, err) :=
      if negb (isEmpty (field data 1))
      then let '(p, e) := parse (field data 1) in (setL out p, e)
      else (out, err) in
    if (length data <? 3)%nat || notNil err then (out, err)
    else
    let '(out, err) :=
      if negb (isEmpty (field data 2))
      then let '(p, e) := parse (field data 2) in (setF out p, e)
      else (out, err) in
    if (length data <? 4)%nat || notNil err then (out, err)
    else
    let out :=
      if negb (isEmpty (field data 3))
      then setJ out (firstByte (field data 3))
      else out in
    if (length data <? 5)%nat || notNil err then (out, err)
    else
    let '(out, err) :=
      if negb (isEmpty (field data 4))
      then let '(p, e) := parse (field data 4) in (setM out p, e)
      else (out, err) in
    (out, err).

(** ** Iterating a string: the [range] clause *)

Module Utf8.

Definition RuneError : Z := 0xFFFD.

(** For a lead byte of a multi-byte sequence: the sequence's size and the
    accepted range of its second byte (the tables [first] and
    [acceptRanges] of [unicode/utf8]). *)
Definition lead (s0 : Z) : option (nat * Z * Z) :=
  if (0xC2 <=? s0) && (s0 <=? 0xDF) then Some (2%nat, 0x80, 0xBF)
  else if s0 =? 0xE0 then Some (3%nat, 0xA0, 0xBF)
  else if s0 =? 0xED then Some (3%nat, 0x80, 0x9F)
  else if (0xE1 <=? s0) && (s0 <=? 0xEF) then Some (3%nat, 0x80, 0xBF)
  else if s0 =? 0xF0 then Some (4%nat, 0x90, 0xBF)
  else if (0xF1 <=? s0) && (s0 <=? 0xF3) then Some (4%nat, 0x80, 0xBF)
  else if s0 =? 0xF4 then Some (4%nat, 0x80, 0x8F)
  else None.

Definition byteAt (s : string) (k : nat) : Z :=
  match String.get k s with Some c => asciiZ c | None => 0 end.

Definition cont (b : Z) : bool := (0x80 <=? b) && (b <=? 0xBF).

(** The first code point of [s] and its width in bytes; an invalid or
    truncated sequence is [RuneError] of width 1. *)
Definition decodeRune (s : string) : Z * nat :=
  match s with
  | EmptyString => (RuneError, 0%nat)
  | String c0 _ =>
      let s0 := asciiZ c0 in
      if s0 <? 0x80 then (s0, 1%nat)
      else match lead s0 with
           | None => (RuneError, 1%nat)
           | Some (sz, lo, hi) =>
               let s1 := byteAt s 1 in
               let s2 := byteAt s 2 in
               let s3 := byteAt s 3 in
               if (String.length s <? sz)%nat then (RuneError, 1%nat)
               else if (s1 <? lo) || (hi <? s1) then (RuneError, 1%nat)
               else if (sz <=? 2)%nat then
                 (Z.lor (Z.shiftl (Z.land s0 0x1F) 6) (Z.land s1 0x3F), 2%nat)
               else if negb (cont s2) then (RuneError, 1%nat)
               else if (sz <=? 3)%nat then
                 (Z.lor (Z.lor (Z.shiftl (Z.land s0 0x0F) 12)
                               (Z.shiftl (Z.land s1 0x3F) 6))
                        (Z.land s2 0x3F), 3%nat)
               else if negb (cont s3) then (RuneError, 1%nat)
               else
                 (Z.lor (Z.lor (Z.lor (Z.shiftl (Z.land s0 0x07) 18)
                                      (Z.shiftl (Z.land s1 0x3F) 12))
                               (Z.shiftl (Z.land s2 0x3F) 6))
                        (Z.land s3 0x3F), 4%nat)
           end
  end.

(** The pairs (byte index, code point) that [for i, b := range s] yields
    for the string whose remaining part is [s], at byte index [i], with
    [skip] bytes of the current code point still to pass. *)
Fixpoint rangeFrom (s : string) (i skip : nat) : list (nat * Z) :=
  match s with
  | EmptyString => []
  | String _ rest =>
      match skip with
      | S k => rangeFrom rest (S i) k
      | O => let '(r, w) := decodeRune s in
             (i, r) :: rangeFrom rest (S i) (Nat.pred w)
      end
  end.

Definition range (s : string) : list (nat * Z) := rangeFrom s 0 0.

End Utf8.

(** ** The position table of one source *)

(** The state of the loop over [datStr]: [line], [lastLinePos], [out]. *)
Definition indexBody (st : Z * Z * list LineCol) (ib : nat * Z)
  : Z * Z * list LineCol :=
  let '(line, lastLinePos, out) := st in
  let '(i, b) := ib in
  let col := uint32 (uint32 (Z.of_nat i) - lastLinePos) in
  (* [i] is an index of [datStr], within [out] *)
  let out := <[ i := {| Line := line; Col := col |} ]> out in
  if b =? asciiZ "010" then (uint32 (line + 1), uint32 (Z.of_nat i), out)
  else (line, lastLinePos, out).

Definition lineCols (datStr : string) : list LineCol :=
  let out := replicate (String.length datStr) zeroLineCol in
  snd (fold_left indexBody (Utf8.range datStr) (1, 0, out)).

(** ** The index *)

Record SourceMap := {
  Sources : list string;                 (* source names *)
  PosData : list (option (list LineCol));
    (* per source, source offset -> line/col; [None] is the nil table *)
  Instr : list InstrMapping              (* per bytecode byte, byte index -> instr *)
}.

(** A call that returns normally or panics with an index out of range. *)
Inductive run (A : Type) :=
| Returns (a : A)
| Panics.
Arguments Returns {A} a.
Arguments Panics {A}.

(** [Info]: the triple [(source, line, col)] of the named results, which
    start at their zero values. *)
Definition Info (s : SourceMap) (pc : N) : run (string * Z * Z) :=
  match Instr s !! N.to_nat pc with
  | None => Panics
  | Some instr =>
      if F_ instr <? 0 then Returns (EmptyString, 0, 0)
      else if int32 (Z.of_nat (length (Sources s))) <=? F_ instr
      then Returns ("unknown"%string, 0, 0)
      else
        match Sources s !! Z.to_nat (F_ instr) with
        | None => Panics
        | Some source =>
            if S_ instr <? 0 then Returns (source, 0, 0)
            else
              match PosData s !! Z.to_nat (F_ instr) with
              | None => Panics
              | Some None => Returns (source, 0, 0)
              | Some (Some tbl) =>
                  match tbl !! Z.to_nat (S_ instr) with
                  | None => Panics
                  | Some lc => Returns (source, Line lc, Col lc)
                  end
              end
        end
  end.

(** ** Building the index *)

Inductive result (A : Type) :=
| Ok (a : A)
| Err (e : error).
Arguments Ok {A} a.
Arguments Err {A} e.

(** The files [os.ReadFile] can read, with their contents; [None] is a
    read error. *)
Definition filesystem := string -> option string.

(** The loop over [sources], from index [i] on, appending to [PosData]. *)
Fixpoint indexSources (fs : filesystem) (i : nat) (sources : list string)
    (posData : list (option (list LineCol)))
  : result (list (option (list LineCol))) :=
  match sources with
  | [] => Ok posData
  | s :: rest =>
      if HasPrefix s "~" then indexSources fs (S i) rest (posData ++ [None])
      else
        match fs s with
        | None => Err (FailedToReadSource i s)
        | Some datStr =>
            indexSources fs (S i) rest (posData ++ [Some (lineCols datStr)])
        end
  end.

(** The length in bytes of the instruction whose opcode is [inst]. *)
Definition instLen (inst : byte) : nat :=
  let instLen := 1%nat in
  if (0x60 <=? byteZ inst) && (byteZ inst <=? 0x7f) then (* push instructions *)
    let pushDataLen := uint8 (uint8 (byteZ inst - 0x60) + 1) in
    (instLen + Z.to_nat pushDataLen)%nat
  else instLen.

(** The record of instruction [instIndex]; the empty string when the source
    map has run out of records. *)
Definition instMapping (instructions : list string) (instIndex : nat) : string :=
  if (length instructions <=? instIndex)%nat then EmptyString
  else field instructions instIndex.

(** The loop over [bytecode], from byte [i] and instruction [instIndex] on.
    Each turn advances [i] by at least one, so [fuel] above
    [length bytecode - i] is never used up ([expand_fuel]); [None] is the
    fuel running out. The line the loop prints when the records have run
    out ("out of instructions") does not enter the result and is left out. *)
Fixpoint expand (fuel : nat) (instructions : list string) (bytecode : list byte)
    (i instIndex : nat) (lastInstr : InstrMapping) (instr : list InstrMapping)
  : option (result (list InstrMapping)) :=
  match fuel with
  | O => None
  | S fuel' =>
      match bytecode !! i with
      | None => Some (Ok instr) (* [i >= len(bytecode)] *)
      | Some inst =>
          let '(m, err) :=
            parseInstrMapping lastInstr (instMapping instructions instIndex) in
          match err with
          | Some err => Some (Err (FailedToParseInstr err))
          | None =>
              expand fuel' instructions bytecode
                (i + instLen inst) (instIndex + 1) lastInstr
                (instr ++ replicate (instLen inst) m)
          end
      end
  end.

Definition ParseSourceMap (fs : filesystem) (sources : list string)
    (bytecode : list byte) (sourceMap : string)
  : option (result SourceMap) :=
  let instructions := Split sourceMap ";" in
  match indexSources fs 0 sources [] with
  | Err e => Some (Err e)
  | Ok posData =>
      match expand (S (length bytecode)) instructions bytecode 0 0 zeroInstr [] with
      | None => None
      | Some (Err e) => Some (Err e)
      | Some (Ok instr) =>
          Some (Ok {| Sources := sources; PosData := posData; Instr := instr |})
      end
  end.

(** File systems for the examples: the one without files. *)
Definition nofiles : filesystem := fun _ => None.

(** The file system with the one file "a.sol", of contents "ab". *)
Definition onefile : filesystem :=
  fun name => if String.eqb name "a.sol" then Some "ab"%string else None.

(** The file system with the file "b.sol", of contents "x" and a newline. *)
Definition twofiles : filesystem :=
  fun name => if String.eqb name "b.sol"
              then Some (String "x" (String "010" EmptyString)) else None.

(** The file system with the file "c.sol", of contents "ab", a newline and
    "cd". *)
Definition abcd : string :=
  String "a" (String "b" (String "010" (String "c" (String "d" EmptyString)))).

Definition threefiles : filesystem :=
  fun name => if String.eqb name "c.sol" then Some abcd else None.

(** The walk of the loop over [bytecode]: from byte [i], instruction [n],
    the loop comes to byte [i'], instruction [n']. *)
Inductive ReachFrom (bytecode : list byte) : nat -> nat -> nat -> nat -> Prop :=
| reach_here i n : ReachFrom bytecode i n i n
| reach_step i n inst i' n' :
    bytecode !! i = Some inst ->
    ReachFrom bytecode (i + instLen inst) (n + 1) i' n' ->
    ReachFrom bytecode i n i' n'.

(** The value of the field at position [q] of a record; a record has no
    field past position 4. *)
Definition fieldValue (q : nat) (m : InstrMapping) : Z :=
  match q with
  | 0%nat => S_ m
  | 1%nat => L_ m
  | 2%nat => F_ m
  | 3%nat => byteZ (J_ m)
  | 4%nat => M_ m
  | _ => 0
  end.

(** The positions of the numeric fields. *)
Definition numericPos (p : nat) : Prop := p = 0%nat \/ p = 1%nat \/ p = 2%nat \/ p = 4%nat.

(** ** Reading a decimal numeral *)

(** The strings of decimal digits, and the number one denotes after the
    digits read so far have given [acc]. *)
Fixpoint allDigits (s : string) : bool :=
  match s with
  | EmptyString => true
  | String c rest => isDigit c && allDigits rest
  end.

Fixpoint digitsValue (s : string) (acc : Z) : Z :=
  match s with
  | EmptyString => acc
  | String c rest => digitsValue rest (acc * 10 + (asciiZ c - asciiZ "0"))
  end.

(** ** Describing a source text *)

(** The texts of bytes below 0x80 only. *)
Fixpoint asciiOnly (s : string) : bool :=
  match s with
  | EmptyString => true
  | String c rest => (asciiZ c <? 0x80) && asciiOnly rest
  end.

(** The number of newline bytes among the first [i] bytes of [s]. *)
Fixpoint newlinesBefore (s : string) (i : nat) : nat :=
  match i, s with
  | S i', String c rest =>
      ((if Ascii.eqb c "010" then 1 else 0) + newlinesBefore rest i')%nat
  | _, _ => 0%nat
  end.

(** The offset of the last newline byte among the first [k] bytes of [t],
    a text that starts at offset [off]; [last] when there is none. *)
Fixpoint lineStartFrom (t : string) (off k last : nat) : nat :=
  match k, t with
  | S k', String c rest =>
      lineStartFrom rest (S off) k' (if Ascii.eqb c "010" then off else last)
  | _, _ => last
  end.

(** Whether the [range] clause over [s] yields the byte index [i]: whether
    a code point (or an invalid byte) starts there. *)
Definition runeStart (s : string) (i : nat) : bool :=
  existsb (fun p => Nat.eqb (fst p) i) (Utf8.range s).

(** * Properties *)

(** ** Fixed-width conversions *)

Lemma int32_le (z : Z) : 0 <= z -> int32 z <= z.
Proof.
  intros Hz. unfold int32.
  pose proof (Z.mod_le (z + 2 ^ 31) (2 ^ 32)) as H. lia.
Qed.

Lemma instLen_pos (inst : byte) : (1 <= instLen inst)%nat.
Proof. unfold instLen. destruct (_ && _); lia. Qed.

Lemma instLen_max (inst : byte) : (instLen inst <= 33)%nat.
Proof. destruct inst; vm_compute; lia. Qed.

(** ** Position Indexer *)

(** C1. On the source text "ab\ncd" the loop of [ParseSourceMap] builds the
    table (1,0), (1,1), (1,2), (2,1), (2,2): [lastLinePos] is the offset of
    the newline itself, so the first byte after the newline has column 1
    and not 0, while the first byte of the file has column 0. An index
    built over the file resolves offset 3 to line 2, column 1. *)
Theorem lineCols_ab_newline_cd :
  lineCols abcd
  = [ {| Line := 1; Col := 0 |}; {| Line := 1; Col := 1 |};
      {| Line := 1; Col := 2 |}; {| Line := 2; Col := 1 |};
      {| Line := 2; Col := 2 |} ]
  /\ lineCols abcd !! 3%nat <> Some {| Line := 2; Col := 0 |}
  /\ exists s, ParseSourceMap threefiles ["c.sol"%string] [x00] "3:1:0" = Some (Ok s)
               /\ Info s 0 = Returns ("c.sol"%string, 2, 1).
Proof.
  split; [ reflexivity | ]. split; [ vm_compute; discriminate | ].
  eexists. split; [ vm_compute; reflexivity | reflexivity ].
Qed.

(** ** Mapping Decoder *)

Lemma Split_length (s : string) (sep : ascii) : (1 <= length (Split s sep))%nat.
Proof.
  induction s as [| c s IH]; simpl; [ lia | ].
  destruct (Ascii.eqb c sep); simpl; [ lia | ].
  destruct (Split s sep); simpl in *; lia.
Qed.

Lemma parseInstrMapping_empty_record (last : InstrMapping) :
  parseInstrMapping last EmptyString = (last, None).
Proof. reflexivity. Qed.

(** C9. The empty record decodes to the carried record, in every field, with
    no error. *)
Theorem empty_record_is_identity (last : InstrMapping) :
  parseInstrMapping last "" = (last, None)
  /\ Split "" ":" = [EmptyString].
Proof. split; reflexivity. Qed.

(** Threading each decoded record into the next call gives the records of
    the inheritance scenario: the overlay of [parseInstrMapping] itself
    inherits field by field. *)
Example parseInstrMapping_threaded :
  let r1 := {| S_ := 1; L_ := 2; F_ := 0; J_ := "-"%byte; M_ := 0 |} in
  let r2 := {| S_ := 1; L_ := 2; F_ := 0; J_ := "i"%byte; M_ := 0 |} in
  let r3 := {| S_ := 3; L_ := 2; F_ := 0; J_ := "i"%byte; M_ := 0 |} in
  parseInstrMapping zeroInstr "1:2:0:-:0" = (r1, None)
  /\ parseInstrMapping r1 ":::i:" = (r2, None)
  /\ parseInstrMapping r2 "3" = (r3, None).
Proof. repeat split; vm_compute; reflexivity. Qed.

(** C5. [ParseSourceMap] decodes the string "1:2:0:-:0;:::i:;3" over three
    one-byte instructions into (1,2,0,'-',0), (0,0,0,'i',0), (3,0,0,0,0):
    [lastInstr] is never assigned in the loop, so every record is laid over
    the zero value and inherits nothing from the record before it. *)
Theorem ParseSourceMap_inheritance_scenario (fs : filesystem) :
  ParseSourceMap fs [] [x00; x00; x00] "1:2:0:-:0;:::i:;3"
  = Some (Ok {| Sources := []; PosData := [];
                Instr := [ {| S_ := 1; L_ := 2; F_ := 0; J_ := "-"%byte; M_ := 0 |};
                           {| S_ := 0; L_ := 0; F_ := 0; J_ := "i"%byte; M_ := 0 |};
                           {| S_ := 3; L_ := 0; F_ := 0; J_ := x00; M_ := 0 |} ] |}).
Proof. vm_compute. reflexivity. Qed.

(** C7. With one record for three one-byte instructions the build succeeds,
    and the second and third instructions receive the zero record, not the
    record (1,2,0,'-',0) decoded last. *)
Theorem ParseSourceMap_underflow_scenario (fs : filesystem) :
  ParseSourceMap fs [] [x00; x00; x00] "1:2:0:-:0"
  = Some (Ok {| Sources := []; PosData := [];
                Instr := [ {| S_ := 1; L_ := 2; F_ := 0; J_ := "-"%byte; M_ := 0 |};
                           zeroInstr; zeroInstr ] |}).
Proof. vm_compute. reflexivity. Qed.

(** ** Byte Expander *)

(** The loop never uses up its fuel. *)
Lemma expand_fuel (instructions : list string) (bytecode : list byte)
    (lastInstr : InstrMapping) (fuel : nat) :
  forall i instIndex instr,
    (length bytecode - i < fuel)%nat ->
    exists r, expand fuel instructions bytecode i instIndex lastInstr instr = Some r.
Proof.
  induction fuel as [| fuel IH]; intros i n instr Hfuel; [ lia | ].
  simpl. destruct (bytecode !! i) as [inst |] eqn:Hi; [ | eauto ].
  destruct (parseInstrMapping lastInstr (instMapping instructions n)) as [m [e |]];
    [ eauto | ].
  apply IH. apply lookup_lt_Some in Hi. pose proof (instLen_pos inst). lia.
Qed.

(** [ParseSourceMap] returns, with an index or with an error. *)
Lemma ParseSourceMap_returns (fs : filesystem) (sources : list string)
    (bytecode : list byte) (sourceMap : string) :
  exists r, ParseSourceMap fs sources bytecode sourceMap = Some r.
Proof.
  unfold ParseSourceMap.
  destruct (indexSources fs 0 sources []) as [posData | e]; [ | eauto ].
  destruct (expand_fuel (Split sourceMap ";") bytecode zeroInstr
              (S (length bytecode)) 0 0 []) as [r Hr]; [ lia | ].
  rewrite Hr. destruct r; eauto.
Qed.

(** What the loop has appended stays. *)
Lemma expand_prefix (instructions : list string) (bytecode : list byte)
    (lastInstr : InstrMapping) (fuel : nat) :
  forall i instIndex instr final,
    expand fuel instructions bytecode i instIndex lastInstr instr = Some (Ok final) ->
    instr `prefix_of` final.
Proof.
  induction fuel as [| fuel IH]; intros i n instr final H; [ discriminate | ].
  simpl in H. destruct (bytecode !! i) as [inst |].
  - destruct (parseInstrMapping lastInstr (instMapping instructions n)) as [m [e |]];
      [ discriminate | ].
    apply IH in H. eapply prefix_app_l, H.
  - injection H as <-. reflexivity.
Qed.

(** The table is as long as the byte at which the loop stops: at least the
    bytecode, and past it by less than one push instruction. *)
Lemma expand_length (instructions : list string) (bytecode : list byte)
    (lastInstr : InstrMapping) (fuel : nat) :
  forall i instIndex instr final,
    expand fuel instructions bytecode i instIndex lastInstr instr = Some (Ok final) ->
    length instr = i ->
    (length bytecode <= length final <= Nat.max i (length bytecode + 32))%nat.
Proof.
  induction fuel as [| fuel IH]; intros i n instr final H Hlen; [ discriminate | ].
  simpl in H. destruct (bytecode !! i) as [inst |] eqn:Hi.
  - destruct (parseInstrMapping lastInstr (instMapping instructions n)) as [m [e |]];
      [ discriminate | ].
    apply IH in H; [ | rewrite length_app, length_replicate; lia ].
    apply lookup_lt_Some in Hi.
    pose proof (instLen_max inst). pose proof (instLen_pos inst). lia.
  - injection H as <-. apply lookup_ge_None in Hi. lia.
Qed.

Lemma ParseSourceMap_Ok_inv (fs : filesystem) (sources : list string)
    (bytecode : list byte) (sourceMap : string) (s : SourceMap) :
  ParseSourceMap fs sources bytecode sourceMap = Some (Ok s) ->
  Sources s = sources
  /\ indexSources fs 0 sources [] = Ok (PosData s)
  /\ expand (S (length bytecode)) (Split sourceMap ";") bytecode 0 0 zeroInstr []
     = Some (Ok (Instr s)).
Proof.
  unfold ParseSourceMap.
  destruct (indexSources fs 0 sources []) as [posData | e]; [ | discriminate ].
  destruct (expand _ _ _ _ _ _ _) as [[instr | e] |]; try discriminate.
  intros [= <-]. auto.
Qed.

(** The table of a built index holds one entry per byte the loop walked
    over, which is every byte of the bytecode and at most 32 more. *)
Lemma Instr_length_bounds (fs : filesystem) (sources : list string)
    (bytecode : list byte) (sourceMap : string) (s : SourceMap) :
  ParseSourceMap fs sources bytecode sourceMap = Some (Ok s) ->
  (length bytecode <= length (Instr s) <= length bytecode + 32)%nat.
Proof.
  intros H. apply ParseSourceMap_Ok_inv in H as (_ & _ & H).
  apply expand_length in H; [ lia | reflexivity ].
Qed.

(** C2. For the bytecode of the single byte 0x60 (a push whose immediate
    byte is missing) the build succeeds with a table of two entries: the
    loop appends [instLen] entries without a look at the bytes left. *)
Theorem ParseSourceMap_truncated_push (fs : filesystem) :
  exists s, ParseSourceMap fs [] [x60] "" = Some (Ok s)
            /\ length (Instr s) = 2%nat
            /\ length [x60] = 1%nat.
Proof. eexists. split; [ vm_compute; reflexivity | split; reflexivity ]. Qed.

(** ** Lookup *)

(** C6. A file index at or past the end of [Sources] resolves to "unknown"
    with line and column zero, and [Info] returns. *)
Theorem Info_unknown (s : SourceMap) (pc : N) (instr : InstrMapping) :
  Instr s !! N.to_nat pc = Some instr ->
  0 <= F_ instr ->
  Z.of_nat (length (Sources s)) <= F_ instr ->
  Info s pc = Returns ("unknown"%string, 0, 0).
Proof.
  intros Hpc Hnonneg Hge. unfold Info. rewrite Hpc.
  destruct (F_ instr <? 0) eqn:Hneg; [ lia | ].
  pose proof (int32_le (Z.of_nat (length (Sources s)))) as Hle.
  destruct (int32 _ <=? F_ instr) eqn:Hcmp; [ reflexivity | lia ].
Qed.

Lemma Info_unknown_witness :
  let s := {| Sources := ["a.sol"%string]; PosData := [None];
              Instr := [ {| S_ := 0; L_ := 0; F_ := 1; J_ := x00; M_ := 0 |} ] |} in
  Info s 0 = Returns ("unknown"%string, 0, 0).
Proof.
  intros s.
  apply (Info_unknown s 0 {| S_ := 0; L_ := 0; F_ := 1; J_ := x00; M_ := 0 |});
    [ reflexivity | simpl; lia | simpl; lia ].
Defined.

(** A start offset at or past the end of the file's table makes [Info]
    panic: the only checks before [PosData[F][S]] are [S < 0] and the nil
    table. *)
Lemma Info_panics_past_table (s : SourceMap) (pc : N) (instr : InstrMapping)
    (source : string) (tbl : list LineCol) :
  Instr s !! N.to_nat pc = Some instr ->
  0 <= F_ instr < int32 (Z.of_nat (length (Sources s))) ->
  Sources s !! Z.to_nat (F_ instr) = Some source ->
  PosData s !! Z.to_nat (F_ instr) = Some (Some tbl) ->
  Z.of_nat (length tbl) <= S_ instr ->
  Info s pc = Panics.
Proof.
  intros Hpc HF Hsrc Hpos HS. unfold Info. rewrite Hpc.
  destruct (F_ instr <? 0) eqn:Hneg; [ lia | ].
  destruct (int32 _ <=? F_ instr) eqn:Hcmp; [ lia | ].
  rewrite Hsrc. destruct (S_ instr <? 0) eqn:HSneg; [ lia | ].
  rewrite Hpos.
  destruct (tbl !! Z.to_nat (S_ instr)) eqn:Hlook; [ | reflexivity ].
  apply lookup_lt_Some in Hlook. lia.
Qed.

(** C3. There is a built index, over a readable two-byte source, with a
    record of file index 0 and start 5, on which [Info] at the in-range
    [pc] 0 panics on the index into the position table. *)
Theorem Info_start_unchecked :
  exists fs sources bytecode sourceMap s pc instr tbl,
    ParseSourceMap fs sources bytecode sourceMap = Some (Ok s)
    /\ Instr s !! N.to_nat pc = Some instr
    /\ 0 <= F_ instr < Z.of_nat (length (Sources s))
    /\ PosData s !! Z.to_nat (F_ instr) = Some (Some tbl)
    /\ 0 <= S_ instr
    /\ Z.of_nat (length tbl) <= S_ instr
    /\ Info s pc = Panics.
Proof.
  exists onefile, ["a.sol"%string], [x00], "5:1:0"%string.
  eexists. exists 0%N. eexists. eexists.
  split; [ vm_compute; reflexivity | ].
  split; [ reflexivity | ].
  split; [ simpl; lia | ].
  split; [ reflexivity | ].
  split; [ simpl; lia | ].
  split; [ simpl; lia | reflexivity ].
Qed.

(** ** The position tables of a built index *)

Lemma indexSources_shape (fs : filesystem) (sources : list string) :
  forall i posData final,
    indexSources fs i sources posData = Ok final ->
    length final = (length posData + length sources)%nat
    /\ (forall j, (j < length posData)%nat -> final !! j = posData !! j)
    /\ (forall j name, sources !! j = Some name ->
          exists tbl, final !! (length posData + j)%nat = Some tbl
                      /\ (tbl = None <-> HasPrefix name "~" = true)).
Proof.
  induction sources as [| s rest IH]; intros i posData final H; simpl in H.
  - injection H as <-. split; [ simpl; lia | ]. split; [ reflexivity | ].
    intros j name Hj. rewrite lookup_nil in Hj. discriminate.
  - assert (Hstep : exists entry,
               indexSources fs (S i) rest (posData ++ [entry]) = Ok final
               /\ (entry = None <-> HasPrefix s "~" = true)).
    { destruct (HasPrefix s "~") eqn:Hp.
      - exists None. split; [ exact H | tauto ].
      - destruct (fs s) as [datStr |]; [ | discriminate ].
        exists (Some (lineCols datStr)). split; [ exact H | ].
        split; intros; discriminate. }
    destruct Hstep as (entry & Hrest & Hentry).
    apply IH in Hrest as (Hlen & Hold & Hnew).
    rewrite length_app in Hlen, Hold, Hnew. simpl in Hlen, Hold, Hnew.
    split; [ simpl; lia | ]. split.
    + intros j Hj. rewrite Hold by lia. apply lookup_app_l. exact Hj.
    + intros [| j] name Hj; simpl in Hj.
      * injection Hj as <-. exists entry. split; [ | exact Hentry ].
        rewrite Nat.add_0_r, Hold by lia. apply list_lookup_middle. reflexivity.
      * destruct (Hnew j name Hj) as (tbl & Htbl & Hiff).
        exists tbl. split; [ | exact Hiff ].
        rewrite <- Htbl. f_equal. lia.
Qed.

(** A source whose name starts with the marker is not read. *)
Lemma indexSources_unread (fs fs' : filesystem) (sources : list string) :
  (forall name, HasPrefix name "~" = false -> fs' name = fs name) ->
  forall i posData,
    indexSources fs' i sources posData = indexSources fs i sources posData.
Proof.
  intros Hfs. induction sources as [| s rest IH]; intros i posData; simpl;
    [ reflexivity | ].
  destruct (HasPrefix s "~") eqn:Hp; [ apply IH | ].
  rewrite (Hfs s Hp). destruct (fs s); [ apply IH | reflexivity ].
Qed.

(** C10. In a built index [PosData] has one entry per source name, the
    entry is nil exactly for the names that start with '~' (whose files do
    not take part in the build), and a file index that passes the checks of
    [Info] is within [Sources] and within [PosData]. *)
Theorem PosData_per_source (fs : filesystem) (sources : list string)
    (bytecode : list byte) (sourceMap : string) (s : SourceMap) :
  ParseSourceMap fs sources bytecode sourceMap = Some (Ok s) ->
  Sources s = sources
  /\ length (PosData s) = length (Sources s)
  /\ (forall i name, Sources s !! i = Some name ->
        exists tbl, PosData s !! i = Some tbl
                    /\ (tbl = None <-> HasPrefix name "~" = true))
  /\ (forall fs' : filesystem,
        (forall name, HasPrefix name "~" = false -> fs' name = fs name) ->
        ParseSourceMap fs' sources bytecode sourceMap = Some (Ok s))
  /\ (forall f, 0 <= f < int32 (Z.of_nat (length (Sources s))) ->
        is_Some (Sources s !! Z.to_nat f) /\ is_Some (PosData s !! Z.to_nat f)).
Proof.
  intros H. pose proof H as Hbuild.
  apply ParseSourceMap_Ok_inv in H as (Hsrc & Hpos & _).
  apply indexSources_shape in Hpos as (Hlen & _ & Hnew). simpl in Hlen, Hnew.
  rewrite Hsrc. split; [ reflexivity | ]. split; [ exact Hlen | ].
  split; [ exact Hnew | ]. split.
  - intros fs' Hfs. unfold ParseSourceMap in *.
    rewrite (indexSources_unread fs fs' sources Hfs). exact Hbuild.
  - intros f Hf.
    pose proof (int32_le (Z.of_nat (length sources))) as Hle.
    split; apply lookup_lt_is_Some; lia.
Qed.

Lemma PosData_per_source_witness :
  let s := {| Sources := ["~gen"%string; "b.sol"%string];
              PosData := [None; Some [ {| Line := 1; Col := 0 |};
                                       {| Line := 1; Col := 1 |} ]];
              Instr := [zeroInstr] |} in
  length (PosData s) = length (Sources s)
  /\ PosData s !! 0%nat = Some None
  /\ is_Some (PosData s !! Z.to_nat 1).
Proof.
  intros s.
  destruct (PosData_per_source twofiles ["~gen"%string; "b.sol"%string] [x00]
              ""%string s) as (_ & Hlen & _ & _ & Hin);
    [ vm_compute; reflexivity | ].
  split; [ exact Hlen | ]. split; [ reflexivity | ].
  apply (Hin 1). vm_compute. split; [ discriminate | reflexivity ].
Defined.

(** ** One record for every byte of an instruction *)

Lemma ReachFrom_snoc (bytecode : list byte) (i0 n0 i n : nat) (inst : byte) :
  ReachFrom bytecode i0 n0 i n ->
  bytecode !! i = Some inst ->
  ReachFrom bytecode i0 n0 (i + instLen inst) (n + 1).
Proof.
  induction 1 as [i n | i0 n0 inst0 i n Hi0 _ IH]; intros Hi.
  - eapply reach_step; [ exact Hi | apply reach_here ].
  - eapply reach_step; [ exact Hi0 | apply IH, Hi ].
Qed.

Lemma ReachFrom_le (bytecode : list byte) (i0 n0 i n : nat) :
  ReachFrom bytecode i0 n0 i n -> (i0 <= i /\ n0 <= n)%nat.
Proof. induction 1; lia. Qed.

(** The entries of the instruction the loop meets at byte [i]. *)
Lemma expand_entries (instructions : list string) (bytecode : list byte)
    (lastInstr : InstrMapping) (i0 n0 i n : nat) (inst : byte) :
  ReachFrom bytecode i0 n0 i n ->
  bytecode !! i = Some inst ->
  forall fuel instr final,
    expand fuel instructions bytecode i0 n0 lastInstr instr = Some (Ok final) ->
    length instr = i0 ->
    exists m,
      parseInstrMapping lastInstr (instMapping instructions n) = (m, None)
      /\ forall j, (j < instLen inst)%nat -> final !! (i + j)%nat = Some m.
Proof.
  induction 1 as [i n | i0 n0 inst0 i n Hi0 _ IH]; intros Hi fuel instr final H Hlen;
    (destruct fuel as [| fuel]; [ discriminate | ]); simpl in H.
  - rewrite Hi in H.
    destruct (parseInstrMapping lastInstr (instMapping instructions n)) as [m [e |]];
      [ discriminate | ].
    exists m. split; [ reflexivity | ]. intros j Hj.
    apply expand_prefix in H.
    eapply prefix_lookup_Some; [ | exact H ].
    rewrite lookup_app_r by lia.
    apply lookup_replicate_2. lia.
  - rewrite Hi0 in H.
    destruct (parseInstrMapping lastInstr (instMapping instructions n0)) as [m0 [e |]];
      [ discriminate | ].
    eapply IH; [ exact Hi | exact H | ].
    rewrite length_app, length_replicate. lia.
Qed.

Lemma instLen_push (inst : byte) (k : Z) :
  0 <= k <= 31 -> byteZ inst = 0x60 + k -> instLen inst = Z.to_nat (2 + k).
Proof.
  intros Hk Hinst. unfold instLen. rewrite Hinst.
  replace ((0x60 <=? 0x60 + k) && (0x60 + k <=? 0x7f)) with true
    by (symmetry; apply andb_true_iff; lia).
  replace (0x60 + k - 0x60) with k by lia.
  unfold uint8. rewrite (Z.mod_small k), (Z.mod_small (k + 1)) by lia. lia.
Qed.

Lemma instLen_other (inst : byte) :
  ~ (0x60 <= byteZ inst <= 0x7f) -> instLen inst = 1%nat.
Proof.
  intros Hout. unfold instLen.
  destruct ((0x60 <=? byteZ inst) && (byteZ inst <=? 0x7f)) eqn:Hin;
    [ | reflexivity ].
  apply andb_true_iff in Hin. lia.
Qed.

(** C4. In a built index, for every byte [i] at which the loop meets an
    opcode [inst]: the next instruction starts [instLen inst] bytes
    further, the entries of all these bytes hold the one record decoded for
    the instruction, and [instLen] is [2+k] for the opcode [0x60+k] with
    [k] in 0..31 and 1 for every opcode outside 0x60..0x7f. *)
Theorem push_expansion (fs : filesystem) (sources : list string)
    (bytecode : list byte) (sourceMap : string) (s : SourceMap)
    (i n : nat) (inst : byte) :
  ParseSourceMap fs sources bytecode sourceMap = Some (Ok s) ->
  ReachFrom bytecode 0 0 i n ->
  bytecode !! i = Some inst ->
  ReachFrom bytecode 0 0 (i + instLen inst) (n + 1)
  /\ (exists m,
        parseInstrMapping zeroInstr (instMapping (Split sourceMap ";") n) = (m, None)
        /\ forall j, (j < instLen inst)%nat -> Instr s !! (i + j)%nat = Some m)
  /\ (forall k, 0 <= k <= 31 -> byteZ inst = 0x60 + k ->
        instLen inst = Z.to_nat (2 + k))
  /\ (~ (0x60 <= byteZ inst <= 0x7f) -> instLen inst = 1%nat).
Proof.
  intros H Hreach Hi.
  apply ParseSourceMap_Ok_inv in H as (_ & _ & H).
  split; [ apply ReachFrom_snoc; assumption | ].
  split; [ eapply expand_entries; eauto | ].
  split; [ apply instLen_push | apply instLen_other ].
Qed.

(** A push of two immediate bytes after a one-byte instruction: the bytes
    1, 2 and 3 of the table all hold the second record. *)
Lemma push_expansion_witness :
  let r0 := {| S_ := 4; L_ := 0; F_ := 0; J_ := x00; M_ := 0 |} in
  let r := {| S_ := 7; L_ := 0; F_ := 0; J_ := x00; M_ := 0 |} in
  let s := {| Sources := []; PosData := []; Instr := [r0; r; r; r] |} in
  ParseSourceMap nofiles [] [x00; x61; xaa; xbb] "4;7" = Some (Ok s)
  /\ ReachFrom [x00; x61; xaa; xbb] 0 0 1 1
  /\ ReachFrom [x00; x61; xaa; xbb] 0 0 (1 + instLen x61) (1 + 1)
  /\ instLen x61 = Z.to_nat (2 + 1)
  /\ exists m, forall j, (j < instLen x61)%nat -> Instr s !! (1 + j)%nat = Some m.
Proof.
  intros r0 r s.
  assert (Hs : ParseSourceMap nofiles [] [x00; x61; xaa; xbb] "4;7" = Some (Ok s))
    by (vm_compute; reflexivity).
  assert (Hreach : ReachFrom [x00; x61; xaa; xbb] 0 0 1 1)
    by (apply (reach_step _ 0 0 x00); [ reflexivity | apply reach_here ]).
  destruct (push_expansion nofiles [] [x00; x61; xaa; xbb] "4;7" s 1 1 x61
              Hs Hreach eq_refl) as (Hnext & (m & _ & Hentries) & Hlen & _).
  split; [ exact Hs | ]. split; [ exact Hreach | ]. split; [ exact Hnext | ].
  split; [ apply (Hlen 1); [ lia | reflexivity ] | ].
  exists m. exact Hentries.
Defined.

(** ** A field that does not parse *)

Lemma parse_ok (x : string) :
  snd (ParseInt x) = None -> parse x = (int32 (fst (ParseInt x)), None).
Proof. unfold parse. destruct (ParseInt x) as [v e]. simpl. intros ->. reflexivity. Qed.

Lemma parse_bad (x : string) (val : Z) (k : numErr) :
  ParseInt x = (val, Some k) ->
  parse x = (int32 val, Some (NumError "ParseInt" x k)).
Proof. unfold parse. intros ->. reflexivity. Qed.

Lemma isEmpty_false (x : string) : x <> EmptyString -> isEmpty x = false.
Proof. destruct x; [ congruence | reflexivity ]. Qed.

Lemma numericPos_0 : numericPos 0. Proof. unfold numericPos. tauto. Qed.
Lemma numericPos_1 : numericPos 1. Proof. unfold numericPos. tauto. Qed.
Lemma numericPos_2 : numericPos 2. Proof. unfold numericPos. tauto. Qed.

(** An earlier numeric field is absent or parses. *)
Ltac earlier_field H q Hq d :=
  let Hd := fresh "Hd" in
  pose proof (H q ltac:(lia) Hq) as Hd; unfold field in Hd; simpl in Hd;
  destruct (isEmpty d) eqn:?;
  [ | rewrite (parse_ok d) by (apply Hd; intros ->; discriminate) ];
  clear Hd; simpl.

Lemma parseInstrMapping_bad_field (last : InstrMapping) (v : string)
    (p : nat) (val : Z) (k : numErr) :
  let data := Split v ":" in
  (length data <= 5)%nat -> numericPos p -> (p < length data)%nat ->
  field data p <> EmptyString ->
  ParseInt (field data p) = (val, Some k) ->
  (forall q, (q < p)%nat -> numericPos q -> field data q <> EmptyString ->
             snd (ParseInt (field data q)) = None) ->
  exists out,
    parseInstrMapping last v = (out, Some (NumError "ParseInt" (field data p) k))
    /\ forall q, (p < q)%nat -> fieldValue q out = fieldValue q last.
Proof.
  intros data Hlen Hp Hlt Hpresent Hbad Hprev.
  unfold parseInstrMapping. fold data. clearbody data.
  apply isEmpty_false in Hpresent. apply parse_bad in Hbad.
  destruct data as [| d0 [| d1 [| d2 [| d3 [| d4 [| d5 data]]]]]];
    simpl in Hlen, Hlt; try lia;
    destruct Hp as [-> | [-> | [-> | ->]]]; try lia;
    unfold field in Hpresent, Hbad |- *; simpl in Hpresent, Hbad |- *.
  all: try (earlier_field Hprev 0%nat numericPos_0 d0).
  all: try (earlier_field Hprev 1%nat numericPos_1 d1).
  all: try (earlier_field Hprev 2%nat numericPos_2 d2).
  all: rewrite Hpresent, Hbad; simpl.
  all: eexists; (split; [ reflexivity | ]).
  all: intros [| [| [| [| [| q]]]]] Hq; try lia; reflexivity.
Qed.

(** The loop, come to an instruction whose record does not decode, with
    the records before it decoded, returns the wrapped error. *)
Lemma expand_reach_err (instructions : list string) (bytecode : list byte)
    (lastInstr : InstrMapping) (i0 n0 i n : nat) (out : InstrMapping) (e : error) :
  ReachFrom bytecode i0 n0 i n ->
  (i < length bytecode)%nat ->
  (forall n', (n0 <= n' < n)%nat ->
     snd (parseInstrMapping lastInstr (instMapping instructions n')) = None) ->
  parseInstrMapping lastInstr (instMapping instructions n) = (out, Some e) ->
  forall fuel instr,
    (length bytecode - i0 < fuel)%nat ->
    expand fuel instructions bytecode i0 n0 lastInstr instr
    = Some (Err (FailedToParseInstr e)).
Proof.
  induction 1 as [i n | i0 n0 inst0 i n Hi0 Hreach IH];
    intros Hi Hprev Hbad fuel instr Hfuel;
    (destruct fuel as [| fuel]; [ lia | ]); simpl.
  - destruct (lookup_lt_is_Some_2 bytecode i Hi) as [inst ->].
    rewrite Hbad. reflexivity.
  - rewrite Hi0. apply ReachFrom_le in Hreach as Hle.
    pose proof (Hprev n0 ltac:(lia)) as Hn0.
    destruct (parseInstrMapping lastInstr (instMapping instructions n0)) as [m0 e0].
    simpl in Hn0. subst e0.
    apply IH; [ exact Hi | intros n' Hn'; apply Hprev; lia | exact Hbad | ].
    apply lookup_lt_Some in Hi0. pose proof (instLen_pos inst0). lia.
Qed.

(** X22. Let record [n] be one the loop comes to, the sources read and the
    records before it decoded; let it have at most five fields, of which
    the numeric field at position [p] is present and does not parse as
    [int32], the numeric fields before it being absent or well formed.
    Then [parseInstrMapping] returns the [NumError] of [ParseInt] that
    holds this field's text, with every field after position [p] as in the
    carried record, and the build fails with this error under the wrapper
    of [ParseSourceMap]. *)
Theorem build_fails_on_bad_field (fs : filesystem) (sources : list string)
    (bytecode : list byte) (sourceMap : string)
    (posData : list (option (list LineCol)))
    (i n p : nat) (val : Z) (k : numErr) (last : InstrMapping) :
  let instructions := Split sourceMap ";" in
  let data := Split (instMapping instructions n) ":" in
  indexSources fs 0 sources [] = Ok posData ->
  ReachFrom bytecode 0 0 i n ->
  (i < length bytecode)%nat ->
  (forall n', (n' < n)%nat ->
     snd (parseInstrMapping zeroInstr (instMapping instructions n')) = None) ->
  (length data <= 5)%nat ->
  numericPos p ->
  (p < length data)%nat ->
  field data p <> EmptyString ->
  ParseInt (field data p) = (val, Some k) ->
  (forall q, (q < p)%nat -> numericPos q -> field data q <> EmptyString ->
             snd (ParseInt (field data q)) = None) ->
  (exists out,
     parseInstrMapping last (instMapping instructions n)
     = (out, Some (NumError "ParseInt" (field data p) k))
     /\ forall q, (p < q)%nat -> fieldValue q out = fieldValue q last)
  /\ ParseSourceMap fs sources bytecode sourceMap
     = Some (Err (FailedToParseInstr (NumError "ParseInt" (field data p) k))).
Proof.
  intros instructions data Hsrc Hreach Hi Hprev Hlen Hp Hlt Hpresent Hbad Hfields.
  split.
  - apply (parseInstrMapping_bad_field last _ p val k); assumption.
  - destruct (parseInstrMapping_bad_field zeroInstr (instMapping instructions n)
                p val k Hlen Hp Hlt Hpresent Hbad Hfields) as (out & Hout & _).
    unfold ParseSourceMap. rewrite Hsrc. fold instructions.
    rewrite (expand_reach_err instructions bytecode zeroInstr 0 0 i n out
               (NumError "ParseInt" (field data p) k) Hreach Hi);
      [ reflexivity | intros n' Hn'; apply Hprev; lia | exact Hout | lia ].
Qed.

(** The second record of ";1:x:3", for the second of two one-byte
    instructions: the field "x" at position 1 is refused, the field "3"
    after it is not decoded. *)
Lemma build_fails_on_bad_field_witness :
  (exists out,
     parseInstrMapping zeroInstr "1:x:3"
     = (out, Some (NumError "ParseInt" "x" ErrSyntax))
     /\ forall q, (1 < q)%nat -> fieldValue q out = fieldValue q zeroInstr)
  /\ ParseSourceMap nofiles [] [x00; x00] ";1:x:3"
     = Some (Err (FailedToParseInstr (NumError "ParseInt" "x" ErrSyntax))).
Proof.
  apply (build_fails_on_bad_field nofiles [] [x00; x00] ";1:x:3" [] 1 1 1 0
           ErrSyntax zeroInstr).
  - reflexivity.
  - apply (reach_step _ 0 0 x00); [ reflexivity | apply reach_here ].
  - simpl. lia.
  - intros n' Hn'. assert (n' = 0%nat) as -> by lia. reflexivity.
  - vm_compute. lia.
  - unfold numericPos. tauto.
  - vm_compute. lia.
  - vm_compute. discriminate.
  - reflexivity.
  - intros q Hq _ _. assert (q = 0%nat) as -> by lia. reflexivity.
Defined.

(** C8. For two one-byte instructions and the mapping string ";1:x:3" the
    record of instruction 1 has the malformed field "x": the field "3"
    after it is not decoded and the build fails with the error of
    [ParseInt] that holds "x", but the wrapper of [ParseSourceMap] adds its
    fixed text only. The error is the very error of the build over
    "1:x:3", which fails at instruction 0: it does not hold [instIndex],
    where the wrapper of a read failure holds the index of its source. *)
Theorem parse_error_omits_instruction_index (fs : filesystem) :
  field (Split ";1:x:3" ";") 1 = "1:x:3"%string
  /\ field (Split "1:x:3" ";") 0 = "1:x:3"%string
  /\ parseInstrMapping zeroInstr "1:x:3"
     = ({| S_ := 1; L_ := 0; F_ := 0; J_ := x00; M_ := 0 |},
        Some (NumError "ParseInt" "x" ErrSyntax))
  /\ ParseSourceMap fs [] [x00; x00] ";1:x:3"
     = Some (Err (FailedToParseInstr (NumError "ParseInt" "x" ErrSyntax)))
  /\ ParseSourceMap fs [] [x00; x00] "1:x:3"
     = Some (Err (FailedToParseInstr (NumError "ParseInt" "x" ErrSyntax))).
Proof. repeat split; vm_compute; reflexivity. Qed.

(** ** When the table is exactly as long as the bytecode *)

Lemma expand_length_at_boundary (instructions : list string) (bytecode : list byte)
    (lastInstr : InstrMapping) (i0 n0 n : nat) :
  ReachFrom bytecode i0 n0 (length bytecode) n ->
  forall fuel instr final,
    expand fuel instructions bytecode i0 n0 lastInstr instr = Some (Ok final) ->
    length instr = i0 ->
    length final = length bytecode.
Proof.
  remember (length bytecode) as len eqn:Hlen.
  induction 1 as [i n | i0 n0 inst0 i n Hi0 _ IH]; intros fuel instr final H Hacc;
    (destruct fuel as [| fuel]; [ discriminate | ]); simpl in H.
  - subst i. rewrite (lookup_ge_None_2 bytecode (length bytecode)) in H by lia.
    injection H as <-. exact Hacc.
  - rewrite Hi0 in H.
    destruct (parseInstrMapping lastInstr (instMapping instructions n0)) as [m0 [e |]];
      [ discriminate | ].
    eapply IH; [ exact Hlen | exact H | ].
    rewrite length_app, length_replicate. lia.
Qed.

(** When the last instruction ends with the bytecode, the table of a built
    index has one entry per byte of the bytecode. *)
Lemma Instr_length_at_boundary (fs : filesystem) (sources : list string)
    (bytecode : list byte) (sourceMap : string) (s : SourceMap) (n : nat) :
  ParseSourceMap fs sources bytecode sourceMap = Some (Ok s) ->
  ReachFrom bytecode 0 0 (length bytecode) n ->
  length (Instr s) = length bytecode.
Proof.
  intros H Hreach. apply ParseSourceMap_Ok_inv in H as (_ & _ & H).
  eapply expand_length_at_boundary; [ exact Hreach | exact H | reflexivity ].
Qed.

(** * Further properties of the decoder *)

Lemma parseUintLoop_nonneg (s : string) :
  forall n, 0 <= n -> 0 <= fst (parseUintLoop s n).
Proof.
  induction s as [| c s IH]; intros n Hn; simpl; [ exact Hn | ].
  destruct (isDigit c); [ | simpl; lia ].
  destruct (_ <=? n); [ simpl; lia | ].
  destruct (_ || _); [ simpl; lia | ].
  apply IH. unfold uint64. apply Z.mod_pos_bound. lia.
Qed.

Lemma parseUintLoop_max (s : string) :
  forall n, n <= 2 ^ 32 - 1 -> fst (parseUintLoop s n) <= 2 ^ 32 - 1.
Proof.
  induction s as [| c s IH]; intros n Hn; simpl; [ exact Hn | ].
  destruct (isDigit c); [ | simpl; lia ].
  destruct (_ <=? n); [ simpl; lia | ].
  destruct (_ || _) eqn:Hov; [ simpl; lia | ].
  apply IH. apply orb_false_iff in Hov as [_ Hov]. lia.
Qed.

Lemma ParseUint_nonneg (s : string) : 0 <= fst (ParseUint s).
Proof.
  destruct s; [ simpl; lia | ]. unfold ParseUint.
  apply parseUintLoop_nonneg. lia.
Qed.

(** The value [ParseInt] returns is an [int32], also beside an error. *)
Lemma ParseInt_range (s : string) : - 2 ^ 31 <= fst (ParseInt s) < 2 ^ 31.
Proof.
  destruct s as [| c rest]; [ simpl; lia | ]. unfold ParseInt.
  set (s' := if Ascii.eqb c "+" then rest else _).
  pose proof (ParseUint_nonneg s') as Hnn.
  destruct (ParseUint s') as [un err]. simpl in Hnn.
  destruct err as [[|] |]; [ simpl; lia | | ];
    destruct (Ascii.eqb c "-"); simpl;
    repeat match goal with
           | |- context [if ?b then _ else _] => destruct b eqn:?; simpl
           end; lia.
Qed.

Lemma int32_small (z : Z) : - 2 ^ 31 <= z < 2 ^ 31 -> int32 z = z.
Proof. intros Hz. unfold int32. rewrite Z.mod_small by lia. lia. Qed.

Lemma parse_value (x : string) : fst (parse x) = fst (ParseInt x).
Proof.
  unfold parse. pose proof (ParseInt_range x) as Hr.
  destruct (ParseInt x) as [p e]. simpl in *. apply int32_small, Hr.
Qed.

Lemma parse_error (x : string) :
  snd (parse x) = option_map (NumError "ParseInt" x) (snd (ParseInt x)).
Proof. unfold parse. destruct (ParseInt x) as [p e]. reflexivity. Qed.

Lemma parse_succeeds_iff (x : string) :
  snd (parse x) = None <-> snd (ParseInt x) = None.
Proof.
  rewrite parse_error. destruct (snd (ParseInt x)); simpl; split; congruence.
Qed.

Lemma digitsValue_ge (s : string) :
  allDigits s = true -> forall acc, 0 <= acc -> acc <= digitsValue s acc.
Proof.
  induction s as [| c s IH]; intros Hs acc Hacc; simpl in *; [ lia | ].
  apply andb_true_iff in Hs as [Hc Hs].
  unfold isDigit in Hc. apply andb_true_iff in Hc as [Hlo Hhi].
  etransitivity; [ | apply IH; [ exact Hs | lia ] ]. lia.
Qed.

(** The digit loop on a string of digits: the number, unless it is above
    the largest [uint32]. *)
Lemma parseUintLoop_digits (s : string) :
  allDigits s = true ->
  forall n, 0 <= n <= 2 ^ 32 - 1 ->
    parseUintLoop s n
    = if digitsValue s n <=? 2 ^ 32 - 1 then (digitsValue s n, None)
      else (2 ^ 32 - 1, Some ErrRange).
Proof.
  induction s as [| c s IH]; intros Hs n Hn; simpl in Hs |- *.
  - destruct (n <=? 2 ^ 32 - 1) eqn:Hle; [ reflexivity | lia ].
  - apply andb_true_iff in Hs as [Hc Hs]. rewrite Hc.
    unfold isDigit in Hc. apply andb_true_iff in Hc as [Hlo Hhi].
    change (asciiZ "0") with 48 in *. change (asciiZ "9") with 57 in *.
    assert (Hd : uint8 (asciiZ c - 48) = asciiZ c - 48)
      by (unfold uint8; apply Z.mod_small; lia).
    assert (Hn10 : uint64 (n * 10) = n * 10)
      by (unfold uint64; apply Z.mod_small; lia).
    assert (Hn1 : uint64 (n * 10 + (asciiZ c - 48)) = n * 10 + (asciiZ c - 48))
      by (unfold uint64; apply Z.mod_small; lia).
    rewrite Hd, Hn10, Hn1.
    destruct ((2 ^ 64 - 1) / 10 + 1 <=? n) eqn:Hcut;
      [ apply Z.leb_le in Hcut; change ((2 ^ 64 - 1) / 10 + 1) with 1844674407370955162 in Hcut; lia | ].
    destruct ((n * 10 + (asciiZ c - 48) <? n * 10)
              || (2 ^ 32 - 1 <? n * 10 + (asciiZ c - 48))) eqn:Hov.
    + apply orb_true_iff in Hov as [Hov | Hov]; [ lia | ].
      pose proof (digitsValue_ge s Hs (n * 10 + (asciiZ c - 48)) ltac:(lia)).
      destruct (digitsValue s _ <=? 2 ^ 32 - 1) eqn:Hle; [ lia | reflexivity ].
    + apply orb_false_iff in Hov as [_ Hov]. apply IH; [ exact Hs | lia ].
Qed.

Lemma ParseInt_unsigned (c : ascii) (rest : string) :
  Ascii.eqb c "+" = false -> Ascii.eqb c "-" = false ->
  ParseInt (String c rest)
  = let '(un, err) := ParseUint (String c rest) in
    match err with
    | Some ErrSyntax => (0, Some ErrSyntax)
    | _ => if 2 ^ 31 <=? un then (2 ^ 31 - 1, Some ErrRange) else (un, None)
    end.
Proof. intros Hplus Hminus. unfold ParseInt. rewrite Hplus, Hminus. reflexivity. Qed.

(** X1. A field of decimal digits decodes to the number it denotes when
    that is below 2^31; otherwise [parse] gives the largest [int32] with a
    range error that holds the field. *)
Theorem parse_digits (c : ascii) (rest : string) :
  allDigits (String c rest) = true ->
  parse (String c rest)
  = if digitsValue (String c rest) 0 <? 2 ^ 31
    then (digitsValue (String c rest) 0, None)
    else (2 ^ 31 - 1, Some (NumError "ParseInt" (String c rest) ErrRange)).
Proof.
  intros Hs.
  assert (Hsign : Ascii.eqb c "+" = false /\ Ascii.eqb c "-" = false).
  { simpl in Hs. apply andb_true_iff in Hs as [Hc _].
    unfold isDigit in Hc. apply andb_true_iff in Hc as [Hlo Hhi].
    split; apply Ascii.eqb_neq; intros ->; vm_compute in Hlo, Hhi; discriminate. }
  destruct Hsign as [Hplus Hminus].
  pose proof (digitsValue_ge _ Hs 0 ltac:(lia)) as Hge.
  pose proof (parseUintLoop_digits _ Hs 0 ltac:(lia)) as Hloop.
  unfold parse. rewrite (ParseInt_unsigned c rest Hplus Hminus).
  unfold ParseUint. rewrite Hloop.
  set (v := digitsValue (String c rest) 0) in *. clearbody v.
  destruct (v <=? 2 ^ 32 - 1) eqn:Hle; cbv iota beta.
  - destruct (2 ^ 31 <=? v) eqn:Hcut;
      destruct (v <? 2 ^ 31) eqn:Hlt; try lia; simpl;
      [ reflexivity | ].
    rewrite int32_small by lia. reflexivity.
  - destruct (v <? 2 ^ 31) eqn:Hlt; [ lia | reflexivity ].
Qed.

Lemma parse_digits_witness :
  parse "214" = (214, None)
  /\ parse "2147483648"
     = (2 ^ 31 - 1, Some (NumError "ParseInt" "2147483648" ErrRange)).
Proof.
  split.
  - apply (parse_digits "2" "14"). reflexivity.
  - apply (parse_digits "2" "147483648"). reflexivity.
Defined.

(** X2. A minus sign before decimal digits decodes to the negated number
    down to -2^31, the sentinels of the format included; below that [parse]
    gives the smallest [int32] with a range error. *)
Theorem parse_negative_digits (c : ascii) (rest : string) :
  allDigits (String c rest) = true ->
  parse (String "-" (String c rest))
  = if digitsValue (String c rest) 0 <=? 2 ^ 31
    then (- digitsValue (String c rest) 0, None)
    else (- 2 ^ 31,
          Some (NumError "ParseInt" (String "-" (String c rest)) ErrRange)).
Proof.
  intros Hs.
  pose proof (digitsValue_ge _ Hs 0 ltac:(lia)) as Hge.
  pose proof (parseUintLoop_digits _ Hs 0 ltac:(lia)) as Hloop.
  unfold parse, ParseInt.
  change (Ascii.eqb "-" "+") with false. change (Ascii.eqb "-" "-") with true.
  cbv iota beta zeta. unfold ParseUint. rewrite Hloop.
  set (v := digitsValue (String c rest) 0) in *. clearbody v.
  destruct (v <=? 2 ^ 32 - 1) eqn:Hle; cbv iota beta.
  - destruct (2 ^ 31 <? v) eqn:Hcut;
      destruct (v <=? 2 ^ 31) eqn:Hlt; try lia; simpl;
      [ reflexivity | ].
    rewrite int32_small by lia. reflexivity.
  - destruct (v <=? 2 ^ 31) eqn:Hlt; [ lia | reflexivity ].
Qed.

Lemma parse_negative_digits_witness :
  parse "-1" = (- 1, None)
  /\ parse "-2147483648" = (- 2 ^ 31, None)
  /\ parse "-2147483649"
     = (- 2 ^ 31, Some (NumError "ParseInt" "-2147483649" ErrRange)).
Proof.
  split; [ | split ].
  - apply (parse_negative_digits "1" ""). reflexivity.
  - apply (parse_negative_digits "2" "147483648"). reflexivity.
  - apply (parse_negative_digits "2" "147483649"). reflexivity.
Defined.

(** The cases of a record: its fields, and what [parse] makes of each. *)
Ltac record_fields data :=
  destruct data as [| ?d [| ?d [| ?d [| ?d [| ?d [| ?d ?data]]]]]].

Ltac parse_cases :=
  repeat match goal with
         | |- context [parse ?d] =>
             let p := fresh "p" in let e := fresh "e" in
             let E := fresh "Hparse" in
             destruct (parse d) as [p [e |]] eqn:E
         | |- context [isEmpty ?d] =>
             let E := fresh "Hempty" in destruct (isEmpty d) eqn:E
         end; simpl in *.

(** X3. A field that is absent (the record has fewer fields) or empty
    leaves the carried value of its position, whatever the rest of the
    record holds and whether or not the record decodes. *)
Theorem absent_field_inherits (last : InstrMapping) (v : string) (q : nat) :
  field (Split v ":") q = EmptyString ->
  fieldValue q (fst (parseInstrMapping last v)) = fieldValue q last.
Proof.
  unfold parseInstrMapping. generalize (Split v ":"). intros data Hq.
  record_fields data; unfold field in *; simpl in *;
    try reflexivity;
    destruct q as [| [| [| [| [| q]]]]]; simpl in Hq; subst; simpl;
    try reflexivity;
    parse_cases; try reflexivity; discriminate.
Qed.

Lemma absent_field_inherits_witness :
  let last := {| S_ := 1; L_ := 2; F_ := 3; J_ := "o"%byte; M_ := 4 |} in
  fieldValue 1 (fst (parseInstrMapping last "9::8")) = 2
  /\ fieldValue 4 (fst (parseInstrMapping last "9::8")) = 4.
Proof.
  intros last. split.
  - apply (absent_field_inherits last "9::8" 1). reflexivity.
  - apply (absent_field_inherits last "9::8" 4). reflexivity.
Defined.

Lemma numericPos_4 : numericPos 4. Proof. unfold numericPos. tauto. Qed.

Lemma isEmpty_true (x : string) : isEmpty x = true -> x = EmptyString.
Proof. destruct x; [ reflexivity | discriminate ]. Qed.

(** A present field that [parse] refuses, against the assumption that the
    present numeric fields are well formed. *)
Ltac refused_field :=
  match goal with
  | Hp : parse ?d = (_, Some _), He : isEmpty ?d = false,
    Hall : ?d <> EmptyString -> snd (ParseInt ?d) = None |- _ =>
      exfalso;
      assert (Hok : snd (parse d) = None)
        by (apply parse_succeeds_iff, Hall; intros ->; discriminate);
      rewrite Hp in Hok; discriminate
  end.

(** X4. A record decodes exactly when it has at most five fields and each
    of the numeric fields it holds (positions 0, 1, 2 and 4, when not
    empty) is accepted by [ParseInt]; the jump field is never refused. *)
Theorem parseInstrMapping_succeeds_iff (last : InstrMapping) (v : string) :
  snd (parseInstrMapping last v) = None
  <-> (length (Split v ":") <= 5)%nat
      /\ forall q, numericPos q ->
           field (Split v ":") q <> EmptyString ->
           snd (ParseInt (field (Split v ":") q)) = None.
Proof.
  unfold parseInstrMapping. generalize (Split v ":"). intros data.
  record_fields data; unfold field; simpl; split.
  all: try (intros [Hlen _]; lia).
  all: try discriminate.
  all: try (intros H; split; [ lia | ];
            intros q [-> | [-> | [-> | ->]]]; simpl; intros Hne;
            try congruence;
            apply parse_succeeds_iff;
            match goal with
            | Hne : ?d <> EmptyString |- _ => destruct d; [ congruence | ]
            end;
            revert H; simpl; parse_cases; try reflexivity; discriminate).
  all: intros [_ Hall];
    pose proof (Hall 0%nat numericPos_0) as H0;
    pose proof (Hall 1%nat numericPos_1) as H1;
    pose proof (Hall 2%nat numericPos_2) as H2;
    pose proof (Hall 4%nat numericPos_4) as H4;
    simpl in H0, H1, H2, H4; clear Hall;
    parse_cases; try reflexivity; refused_field.
Qed.

(** X5. In a record that decodes, every numeric field that is present holds
    exactly the number [ParseInt] reads (the conversion to [int32] changes
    nothing), and a present jump field holds the first byte of its text. *)
Theorem present_field_decoded (last : InstrMapping) (v : string) (q : nat) :
  snd (parseInstrMapping last v) = None ->
  field (Split v ":") q <> EmptyString ->
  (numericPos q ->
   fieldValue q (fst (parseInstrMapping last v))
   = fst (ParseInt (field (Split v ":") q)))
  /\ (q = 3%nat ->
      J_ (fst (parseInstrMapping last v)) = firstByte (field (Split v ":") 3)).
Proof.
  unfold parseInstrMapping. generalize (Split v ":"). intros data.
  record_fields data; unfold field; simpl; try discriminate;
    intros Hok Hne; (split; [ intros [-> | [-> | [-> | ->]]] | intros -> ]);
    simpl in Hne |- *; try congruence;
    try rewrite <- parse_value;
    match goal with
    | Hne : ?d <> EmptyString |- _ => destruct d; [ congruence | ]
    end;
    revert Hok; simpl; parse_cases; try reflexivity; try discriminate;
    intros _;
    match goal with
    | H : parse ?x = _ |- context [parse ?x] => rewrite H; reflexivity
    end.
Qed.

Lemma present_field_decoded_witness :
  fieldValue 2 (fst (parseInstrMapping zeroInstr "7:-1:12:o")) = 12
  /\ J_ (fst (parseInstrMapping zeroInstr "7:-1:12:o")) = "o"%byte.
Proof.
  split.
  - apply (present_field_decoded zeroInstr "7:-1:12:o" 2);
      [ reflexivity | vm_compute; discriminate | unfold numericPos; tauto ].
  - apply (present_field_decoded zeroInstr "7:-1:12:o" 3);
      [ reflexivity | vm_compute; discriminate | reflexivity ].
Defined.

(** X6. Decoding a record over its own result changes nothing: the overlay
    is idempotent, in the record and in the error. *)
Theorem parseInstrMapping_idempotent (last : InstrMapping) (v : string) :
  parseInstrMapping (fst (parseInstrMapping last v)) v = parseInstrMapping last v.
Proof.
  unfold parseInstrMapping. generalize (Split v ":"). intros data.
  record_fields data; unfold field; simpl; try reflexivity;
    parse_cases; reflexivity.
Qed.

(** * Further properties of the position table *)

Lemma indexBody_out (st : Z * Z * list LineCol) (ib : nat * Z) :
  snd (indexBody st ib)
  = <[ fst ib := {| Line := fst (fst st);
                    Col := uint32 (uint32 (Z.of_nat (fst ib)) - snd (fst st)) |} ]>
      (snd st).
Proof.
  destruct st as [[line last] out], ib as [i b]. simpl.
  destruct (b =? asciiZ "010"); reflexivity.
Qed.

Lemma fold_indexBody_length (l : list (nat * Z)) :
  forall st, length (snd (fold_left indexBody l st)) = length (snd st).
Proof.
  induction l as [| ib l IH]; intros st; simpl; [ reflexivity | ].
  rewrite IH, indexBody_out. apply length_insert.
Qed.

(** The loop writes at the indices the [range] clause yields only. *)
Lemma fold_indexBody_other (l : list (nat * Z)) (j : nat) :
  Forall (fun p => fst p <> j) l ->
  forall st, snd (fold_left indexBody l st) !! j = snd st !! j.
Proof.
  induction 1 as [| ib l Hib _ IH]; intros st; simpl; [ reflexivity | ].
  rewrite IH, indexBody_out. apply list_lookup_insert_ne. exact Hib.
Qed.

Arguments Utf8.decodeRune : simpl never.

Lemma rangeFrom_bounds (t : string) :
  forall i skip,
    Forall (fun p => (i <= fst p < i + String.length t)%nat) (Utf8.rangeFrom t i skip).
Proof.
  induction t as [| c t IH]; intros i skip; simpl; [ constructor | ].
  assert (Hrest : forall k,
             Forall (fun p => (i <= fst p < i + S (String.length t))%nat)
               (Utf8.rangeFrom t (S i) k)).
  { intros k. eapply Forall_impl; [ apply IH | ]. simpl. intros p Hp. lia. }
  destruct skip as [| k]; [ | apply Hrest ].
  destruct (Utf8.decodeRune (String c t)) as [r w].
  constructor; [ simpl; lia | apply Hrest ].
Qed.

(** X7. The position table of a text has one entry per byte of the text. *)
Theorem lineCols_length (datStr : string) :
  length (lineCols datStr) = String.length datStr.
Proof.
  unfold lineCols. rewrite fold_indexBody_length. simpl.
  apply length_replicate.
Qed.

Lemma runeStart_false (s : string) (i : nat) :
  runeStart s i = false -> Forall (fun p => fst p <> i) (Utf8.range s).
Proof.
  unfold runeStart. generalize (Utf8.range s). intros l.
  induction l as [| p l IH]; simpl; intros H; [ constructor | ].
  apply orb_false_iff in H as [Hp Hl].
  constructor; [ apply Nat.eqb_neq, Hp | apply IH, Hl ].
Qed.

(** X8. A byte at which no code point starts (a continuation byte of a
    well-formed multi-byte sequence) keeps the zero entry: line 0,
    column 0. *)
Theorem lineCols_inside_code_point (datStr : string) (i : nat) :
  (i < String.length datStr)%nat ->
  runeStart datStr i = false ->
  lineCols datStr !! i = Some zeroLineCol.
Proof.
  intros Hi Hstart. unfold lineCols.
  rewrite fold_indexBody_other by (apply runeStart_false, Hstart).
  simpl. apply lookup_replicate_2. exact Hi.
Qed.

(** The text "é;": the bytes 0xC3, 0xA9 and a semicolon. *)
Lemma lineCols_inside_code_point_witness :
  lineCols (String "195" (String "169" (String ";" EmptyString))) !! 1%nat
  = Some zeroLineCol.
Proof.
  apply (lineCols_inside_code_point
           (String "195" (String "169" (String ";" EmptyString))) 1);
    [ simpl; lia | reflexivity ].
Defined.

Lemma decodeRune_ascii (c : ascii) (t : string) :
  (asciiZ c <? 0x80) = true -> Utf8.decodeRune (String c t) = (asciiZ c, 1%nat).
Proof. intros H. unfold Utf8.decodeRune. rewrite H. reflexivity. Qed.

Lemma newline_rune (c : ascii) :
  (asciiZ c =? asciiZ "010") = Ascii.eqb c "010".
Proof.
  destruct (Ascii.eqb_spec c "010") as [-> | Hne]; [ reflexivity | ].
  apply Z.eqb_neq. intros H. apply Hne. unfold asciiZ in H.
  apply N2Z.inj in H. apply (f_equal ascii_of_N) in H.
  rewrite !ascii_N_embedding in H. exact H.
Qed.

(** The loop over an ASCII text [t] that starts at offset [i], short enough
    for the counters not to wrap. *)
Lemma fold_indexBody_ascii (t : string) :
  asciiOnly t = true ->
  forall (i lastn : nat) (line : Z) (out : list LineCol) (k : nat),
    (i + String.length t <= length out)%nat ->
    0 <= line ->
    line + Z.of_nat (String.length t) < 2 ^ 32 ->
    (lastn <= i)%nat ->
    Z.of_nat i + Z.of_nat (String.length t) < 2 ^ 32 ->
    (k < String.length t)%nat ->
    snd (fold_left indexBody (Utf8.rangeFrom t i 0) (line, Z.of_nat lastn, out))
      !! (i + k)%nat
    = Some {| Line := line + Z.of_nat (newlinesBefore t k);
              Col := Z.of_nat (i + k) - Z.of_nat (lineStartFrom t i k lastn) |}.
Proof.
  induction t as [| c t IH]; intros Hascii i lastn line out k Hout Hline Hlines
    Hlast Hoff Hk; simpl in Hk; [ lia | ].
  simpl in Hascii. apply andb_true_iff in Hascii as [Hc Hascii].
  change (String.length (String c t)) with (S (String.length t)) in *.
  cbn [Utf8.rangeFrom]. rewrite (decodeRune_ascii c t Hc).
  cbn [Nat.pred fold_left].
  assert (Hcol : uint32 (uint32 (Z.of_nat i) - Z.of_nat lastn)
                 = Z.of_nat i - Z.of_nat lastn).
  { unfold uint32. rewrite (Z.mod_small (Z.of_nat i)) by lia.
    apply Z.mod_small. lia. }
  assert (Hline1 : uint32 (line + 1) = line + 1)
    by (unfold uint32; apply Z.mod_small; lia).
  assert (Hi32 : uint32 (Z.of_nat i) = Z.of_nat i)
    by (unfold uint32; apply Z.mod_small; lia).
  unfold indexBody at 2. rewrite Hcol, newline_rune.
  destruct k as [| k].
  - rewrite Nat.add_0_r.
    rewrite fold_indexBody_other.
    + destruct (Ascii.eqb c "010"); simpl;
        rewrite list_lookup_insert_eq by lia; do 2 f_equal; lia.
    + eapply Forall_impl; [ apply (rangeFrom_bounds t (S i) 0) | ].
      simpl. intros p Hp. lia.
  - replace (i + S k)%nat with (S i + k)%nat by lia.
    cbn [newlinesBefore lineStartFrom].
    destruct (Ascii.eqb c "010"); rewrite ?Hline1, ?Hi32.
    + rewrite (IH Hascii (S i) i (line + 1)); rewrite ?length_insert; try lia.
      do 2 f_equal; lia.
    + rewrite (IH Hascii (S i) lastn line); rewrite ?length_insert; try lia.
      do 2 f_equal; lia.
Qed.

(** The table of an ASCII text below 4 GiB, entry by entry. *)
Lemma lineCols_ascii (datStr : string) (i : nat) :
  asciiOnly datStr = true ->
  Z.of_nat (String.length datStr) < 2 ^ 32 - 1 ->
  (i < String.length datStr)%nat ->
  lineCols datStr !! i
  = Some {| Line := 1 + Z.of_nat (newlinesBefore datStr i);
            Col := Z.of_nat i - Z.of_nat (lineStartFrom datStr 0 i 0) |}.
Proof.
  intros Hascii Hsize Hi. unfold lineCols, Utf8.range.
  change 0 with (Z.of_nat 0) at 1.
  rewrite <- (Nat.add_0_l i) at 1.
  rewrite (fold_indexBody_ascii datStr Hascii 0 0 1); simpl;
    rewrite ?length_replicate; try lia.
  reflexivity.
Qed.

Lemma lineStartFrom_none (t : string) :
  forall off k last,
    newlinesBefore t k = 0%nat -> lineStartFrom t off k last = last.
Proof.
  induction t as [| c t IH]; intros off [| k] last H; simpl in *; try reflexivity.
  destruct (Ascii.eqb c "010"); [ discriminate | ]. apply IH. exact H.
Qed.

Lemma newlinesBefore_0 (t : string) : newlinesBefore t 0 = 0%nat.
Proof. destruct t; reflexivity. Qed.

Lemma lineStartFrom_newline (t : string) :
  forall off j k last,
    String.get j t = Some "010"%char ->
    (j < k)%nat ->
    newlinesBefore t k = newlinesBefore t (S j) ->
    lineStartFrom t off k last = (off + j)%nat.
Proof.
  induction t as [| c t IH]; intros off j k last Hget Hjk Hnone;
    [ destruct j; discriminate | ].
  destruct k as [| k]; [ lia | ].
  destruct j as [| j]; cbn [String.get] in Hget.
  - injection Hget as ->. cbn [lineStartFrom newlinesBefore] in *.
    change (Ascii.eqb "010" "010") with true in *. cbv iota in *.
    assert (Hk : newlinesBefore t k = 0%nat)
      by (rewrite newlinesBefore_0 in Hnone; lia).
    rewrite (lineStartFrom_none t (S off) k off Hk). lia.
  - cbn [lineStartFrom]. rewrite (IH (S off) j k); [ lia | exact Hget | lia | ].
    change (newlinesBefore (String c t) (S k))
      with ((if Ascii.eqb c "010" then 1 else 0) + newlinesBefore t k)%nat in Hnone.
    change (newlinesBefore (String c t) (S (S j)))
      with ((if Ascii.eqb c "010" then 1 else 0) + newlinesBefore t (S j))%nat in Hnone.
    lia.
Qed.

Lemma lineCols_lookup_lt (datStr : string) (i : nat) (lc : LineCol) :
  lineCols datStr !! i = Some lc -> (i < String.length datStr)%nat.
Proof. intros H. apply lookup_lt_Some in H. rewrite lineCols_length in H. exact H. Qed.

(** X9. In the table of an ASCII text below 4 GiB, the line of a byte is
    one more than the number of newline bytes before it. *)
Theorem line_counts_newlines (datStr : string) (i : nat) (lc : LineCol) :
  asciiOnly datStr = true ->
  Z.of_nat (String.length datStr) < 2 ^ 32 - 1 ->
  lineCols datStr !! i = Some lc ->
  Line lc = 1 + Z.of_nat (newlinesBefore datStr i).
Proof.
  intros Hascii Hsize Hlc. pose proof (lineCols_lookup_lt _ _ _ Hlc) as Hi.
  rewrite (lineCols_ascii datStr i Hascii Hsize Hi) in Hlc.
  injection Hlc as <-. reflexivity.
Qed.

Lemma line_counts_newlines_witness :
  exists lc, lineCols abcd !! 4%nat = Some lc /\ Line lc = 1 + Z.of_nat 1.
Proof.
  exists {| Line := 2; Col := 2 |}. split; [ reflexivity | ].
  apply (line_counts_newlines abcd 4 {| Line := 2; Col := 2 |});
    [ reflexivity | simpl; lia | reflexivity ].
Defined.

(** X10. On the first line of an ASCII text (no newline byte before the
    byte) the column of a byte is its offset: columns start at 0 there. *)
Theorem column_on_first_line (datStr : string) (i : nat) (lc : LineCol) :
  asciiOnly datStr = true ->
  Z.of_nat (String.length datStr) < 2 ^ 32 - 1 ->
  lineCols datStr !! i = Some lc ->
  newlinesBefore datStr i = 0%nat ->
  Col lc = Z.of_nat i.
Proof.
  intros Hascii Hsize Hlc Hnone. pose proof (lineCols_lookup_lt _ _ _ Hlc) as Hi.
  rewrite (lineCols_ascii datStr i Hascii Hsize Hi) in Hlc.
  injection Hlc as <-. simpl. rewrite lineStartFrom_none by exact Hnone. lia.
Qed.

Lemma column_on_first_line_witness :
  exists lc, lineCols abcd !! 2%nat = Some lc /\ Col lc = Z.of_nat 2.
Proof.
  exists {| Line := 1; Col := 2 |}. split; [ reflexivity | ].
  apply (column_on_first_line abcd 2 {| Line := 1; Col := 2 |});
    [ reflexivity | simpl; lia | reflexivity | reflexivity ].
Defined.

(** X11. After a newline byte at offset [j], with no newline byte between
    it and the byte at offset [i], the column of that byte is [i - j], the
    distance to the newline: columns start at 1 on every line but the
    first. *)
Theorem column_after_newline (datStr : string) (i j : nat) (lc : LineCol) :
  asciiOnly datStr = true ->
  Z.of_nat (String.length datStr) < 2 ^ 32 - 1 ->
  lineCols datStr !! i = Some lc ->
  String.get j datStr = Some "010"%char ->
  (j < i)%nat ->
  newlinesBefore datStr i = newlinesBefore datStr (S j) ->
  Col lc = Z.of_nat i - Z.of_nat j.
Proof.
  intros Hascii Hsize Hlc Hget Hji Hnone.
  pose proof (lineCols_lookup_lt _ _ _ Hlc) as Hi.
  rewrite (lineCols_ascii datStr i Hascii Hsize Hi) in Hlc.
  injection Hlc as <-. simpl.
  rewrite (lineStartFrom_newline datStr 0 j i 0 Hget Hji Hnone). lia.
Qed.

Lemma column_after_newline_witness :
  exists lc, lineCols abcd !! 3%nat = Some lc /\ Col lc = Z.of_nat 3 - Z.of_nat 2.
Proof.
  exists {| Line := 2; Col := 1 |}. split; [ reflexivity | ].
  apply (column_after_newline abcd 3 2 {| Line := 2; Col := 1 |});
    [ reflexivity | simpl; lia | reflexivity | reflexivity | lia | reflexivity ].
Defined.

(** * Further properties of the build *)

(** Where the loop over the bytecode stops. *)
Lemma expand_stops (instructions : list string) (bytecode : list byte)
    (lastInstr : InstrMapping) (fuel : nat) :
  forall i0 n0 instr final,
    expand fuel instructions bytecode i0 n0 lastInstr instr = Some (Ok final) ->
    length instr = i0 ->
    exists i n, ReachFrom bytecode i0 n0 i n
                /\ bytecode !! i = None
                /\ length final = i.
Proof.
  induction fuel as [| fuel IH]; intros i0 n0 instr final H Hlen; [ discriminate | ].
  simpl in H. destruct (bytecode !! i0) as [inst |] eqn:Hi0.
  - destruct (parseInstrMapping lastInstr (instMapping instructions n0)) as [m [e |]];
      [ discriminate | ].
    apply IH in H as (i & n & Hreach & Hend & Hfinal);
      [ | rewrite length_app, length_replicate; lia ].
    exists i, n. split; [ eapply reach_step; eassumption | auto ].
  - injection H as <-. exists i0, n0. split; [ apply reach_here | auto ].
Qed.

(** X12. In a built index every byte offset of the bytecode has an entry,
    so that [Instr[pc]] is within range for every [pc] below
    [len(bytecode)], and the table is longer than the bytecode by 32
    entries at most. *)
Theorem every_offset_has_entry (fs : filesystem) (sources : list string)
    (bytecode : list byte) (sourceMap : string) (s : SourceMap) (pc : nat) :
  ParseSourceMap fs sources bytecode sourceMap = Some (Ok s) ->
  (pc < length bytecode)%nat ->
  is_Some (Instr s !! pc)
  /\ (length (Instr s) <= length bytecode + 32)%nat.
Proof.
  intros H Hpc. apply ParseSourceMap_Ok_inv in H as (_ & _ & H).
  apply expand_length in H; [ | reflexivity ].
  split; [ apply lookup_lt_is_Some; lia | lia ].
Qed.

Lemma every_offset_has_entry_witness :
  let s := {| Sources := []; PosData := [];
              Instr := [ zeroInstr; zeroInstr; zeroInstr ] |} in
  is_Some (Instr s !! 1%nat) /\ (length (Instr s) <= 2 + 32)%nat.
Proof.
  intros s.
  apply (every_offset_has_entry nofiles [] [x00; x60] "" s 1);
    [ vm_compute; reflexivity | simpl; lia ].
Defined.

(** X13. The table of a built index is exactly as long as the bytecode if
    and only if the last instruction ends with the bytecode, that is no
    push at the end lacks immediate bytes. *)
Theorem table_length_exact_iff (fs : filesystem) (sources : list string)
    (bytecode : list byte) (sourceMap : string) (s : SourceMap) :
  ParseSourceMap fs sources bytecode sourceMap = Some (Ok s) ->
  length (Instr s) = length bytecode
  <-> exists n, ReachFrom bytecode 0 0 (length bytecode) n.
Proof.
  intros H. apply ParseSourceMap_Ok_inv in H as (_ & _ & H). split.
  - intros Heq. apply expand_stops in H as (i & n & Hreach & _ & Hfinal);
      [ | reflexivity ].
    exists n. rewrite <- Heq, Hfinal. exact Hreach.
  - intros [n Hreach].
    eapply expand_length_at_boundary; [ exact Hreach | exact H | reflexivity ].
Qed.

Lemma table_length_exact_iff_witness :
  let s := {| Sources := []; PosData := [];
              Instr := [ zeroInstr; zeroInstr; zeroInstr ] |} in
  length (Instr s) = length [x00; x60; xff]
  <-> exists n, ReachFrom [x00; x60; xff] 0 0 (length [x00; x60; xff]) n.
Proof.
  intros s.
  apply (table_length_exact_iff nofiles [] [x00; x60; xff] "" s).
  vm_compute; reflexivity.
Defined.

(** The loop over the sources stops at the first source that is to be read
    and cannot be. *)
Lemma indexSources_unreadable (fs : filesystem) (sources : list string) :
  forall i0 posData k name,
    sources !! k = Some name ->
    HasPrefix name "~" = false ->
    fs name = None ->
    (forall j other, (j < k)%nat -> sources !! j = Some other ->
       HasPrefix other "~" = true \/ is_Some (fs other)) ->
    indexSources fs i0 sources posData = Err (FailedToReadSource (i0 + k) name).
Proof.
  induction sources as [| s rest IH]; intros i0 posData k name Hk Hp Hfs Hbefore;
    [ rewrite lookup_nil in Hk; discriminate | ].
  destruct k as [| k]; simpl in Hk |- *.
  - injection Hk as ->. rewrite Hp, Hfs, Nat.add_0_r. reflexivity.
  - assert (Hrest : forall j other, (j < k)%nat -> rest !! j = Some other ->
               HasPrefix other "~" = true \/ is_Some (fs other))
      by (intros j other Hj Ho; apply (Hbefore (S j) other); [ lia | exact Ho ]).
    replace (i0 + S k)%nat with (S i0 + k)%nat by lia.
    destruct (Hbefore 0%nat s ltac:(lia) eq_refl) as [Hs | [dat Hs]].
    + rewrite Hs. apply IH; assumption.
    + destruct (HasPrefix s "~"); [ apply IH; assumption | ].
      rewrite Hs. apply IH; assumption.
Qed.

(** X14. When a source that does not start with '~' cannot be read, the
    sources before it being readable or marked, the build fails with the
    read error that holds the index and the name of that source, whatever
    the bytecode and the mapping string are. *)
Theorem unreadable_source_fails (fs : filesystem) (sources : list string)
    (bytecode : list byte) (sourceMap : string) (k : nat) (name : string) :
  sources !! k = Some name ->
  HasPrefix name "~" = false ->
  fs name = None ->
  (forall j other, (j < k)%nat -> sources !! j = Some other ->
     HasPrefix other "~" = true \/ is_Some (fs other)) ->
  ParseSourceMap fs sources bytecode sourceMap
  = Some (Err (FailedToReadSource k name)).
Proof.
  intros Hk Hp Hfs Hbefore. unfold ParseSourceMap.
  rewrite (indexSources_unreadable fs sources 0 [] k name Hk Hp Hfs Hbefore).
  reflexivity.
Qed.

Lemma unreadable_source_fails_witness :
  ParseSourceMap twofiles ["~gen"; "b.sol"; "gone.sol"]%string [x00] "x:::::::"
  = Some (Err (FailedToReadSource 2 "gone.sol")).
Proof.
  apply (unreadable_source_fails twofiles ["~gen"; "b.sol"; "gone.sol"]%string
           [x00] "x:::::::" 2 "gone.sol");
    [ reflexivity | reflexivity | reflexivity | ].
  intros [| [| j]] other Hj Hother; simpl in Hother; try lia;
    injection Hother as <-; [ left; reflexivity | right; eexists; reflexivity ].
Defined.

(** The loop reads the records of the instructions it walks over only. *)
Lemma expand_records (instructions instructions' : list string)
    (bytecode : list byte) (lastInstr : InstrMapping) (i0 n0 iend count : nat) :
  ReachFrom bytecode i0 n0 iend count ->
  bytecode !! iend = None ->
  (forall n, (n0 <= n < count)%nat ->
     instMapping instructions n = instMapping instructions' n) ->
  forall fuel instr,
    expand fuel instructions bytecode i0 n0 lastInstr instr
    = expand fuel instructions' bytecode i0 n0 lastInstr instr.
Proof.
  induction 1 as [i n | i0 n0 inst0 i n Hi0 Hreach IH]; intros Hend Hsame fuel instr;
    (destruct fuel as [| fuel]; [ reflexivity | ]); simpl.
  - rewrite Hend. reflexivity.
  - rewrite Hi0. apply ReachFrom_le in Hreach as Hle.
    rewrite <- (Hsame n0) by lia.
    destruct (parseInstrMapping lastInstr (instMapping instructions n0)) as [m [e |]];
      [ reflexivity | ].
    apply IH; [ exact Hend | intros n' Hn'; apply Hsame; lia ].
Qed.

(** X15. The build reads one record per instruction of the bytecode: two
    mapping strings that agree on the records of the [count] instructions
    give the same result, so records past the last instruction, well
    formed or not, are without effect. *)
Theorem trailing_records_unused (fs : filesystem) (sources : list string)
    (bytecode : list byte) (sourceMap sourceMap' : string) (iend count : nat) :
  ReachFrom bytecode 0 0 iend count ->
  bytecode !! iend = None ->
  (forall n, (n < count)%nat ->
     instMapping (Split sourceMap ";") n = instMapping (Split sourceMap' ";") n) ->
  ParseSourceMap fs sources bytecode sourceMap
  = ParseSourceMap fs sources bytecode sourceMap'.
Proof.
  intros Hreach Hend Hsame. unfold ParseSourceMap.
  rewrite (expand_records (Split sourceMap ";") (Split sourceMap' ";") bytecode
             zeroInstr 0 0 iend count Hreach Hend);
    [ reflexivity | intros n Hn; apply Hsame; lia ].
Qed.

Lemma trailing_records_unused_witness :
  ParseSourceMap nofiles [] [x61; x01; x02; x00] "1:2;3"
  = ParseSourceMap nofiles [] [x61; x01; x02; x00] "1:2;3;x;1:2:3:4:5:6".
Proof.
  apply (trailing_records_unused nofiles [] [x61; x01; x02; x00]
           "1:2;3" "1:2;3;x;1:2:3:4:5:6" 4 2).
  - apply (reach_step _ 0 0 x61); [ reflexivity | ].
    apply (reach_step _ 3 1 x00); [ reflexivity | apply reach_here ].
  - reflexivity.
  - intros [| [| n]] Hn; try lia; reflexivity.
Defined.

(** X16. In a built index, an instruction whose index is at or past the
    number of records of the mapping string has the zero record in all its
    entries: nothing is carried over from the last record. *)
Theorem underflow_entries_zero (fs : filesystem) (sources : list string)
    (bytecode : list byte) (sourceMap : string) (s : SourceMap)
    (i n : nat) (inst : byte) (j : nat) :
  ParseSourceMap fs sources bytecode sourceMap = Some (Ok s) ->
  ReachFrom bytecode 0 0 i n ->
  bytecode !! i = Some inst ->
  (length (Split sourceMap ";") <= n)%nat ->
  (j < instLen inst)%nat ->
  Instr s !! (i + j)%nat = Some zeroInstr.
Proof.
  intros H Hreach Hi Hn Hj.
  apply ParseSourceMap_Ok_inv in H as (_ & _ & H).
  destruct (expand_entries _ _ _ _ _ _ _ _ Hreach Hi _ _ _ H eq_refl)
    as (m & Hm & Hentries).
  unfold instMapping in Hm.
  destruct (length (Split sourceMap ";") <=? n)%nat eqn:Hcmp;
    [ | apply Nat.leb_gt in Hcmp; lia ].
  rewrite parseInstrMapping_empty_record in Hm. injection Hm as <-.
  apply Hentries, Hj.
Qed.

Lemma underflow_entries_zero_witness :
  let s := {| Sources := []; PosData := [];
              Instr := [ {| S_ := 5; L_ := 6; F_ := 0; J_ := x00; M_ := 0 |};
                         zeroInstr; zeroInstr ] |} in
  Instr s !! (1 + 1)%nat = Some zeroInstr.
Proof.
  intros s.
  apply (underflow_entries_zero nofiles [] [x00; x60; x01] "5:6" s 1 1 x60 1).
  - vm_compute. reflexivity.
  - apply (reach_step _ 0 0 x00); [ reflexivity | apply reach_here ].
  - reflexivity.
  - simpl. lia.
  - vm_compute. lia.
Defined.

Lemma indexSources_readable (fs : filesystem) (sources : list string) :
  Forall (fun name => HasPrefix name "~" = true \/ is_Some (fs name)) sources ->
  forall i posData, exists final, indexSources fs i sources posData = Ok final.
Proof.
  induction 1 as [| s rest Hs _ IH]; intros i posData; simpl; [ eauto | ].
  destruct (HasPrefix s "~"); [ apply IH | ].
  destruct Hs as [Hs | [dat Hs]]; [ discriminate | ].
  rewrite Hs. apply IH.
Qed.

Lemma expand_decodes (instructions : list string) (bytecode : list byte)
    (lastInstr : InstrMapping) :
  (forall n, snd (parseInstrMapping lastInstr (instMapping instructions n)) = None) ->
  forall fuel i n instr,
    (length bytecode - i < fuel)%nat ->
    exists final, expand fuel instructions bytecode i n lastInstr instr = Some (Ok final).
Proof.
  intros Hall. induction fuel as [| fuel IH]; intros i n instr Hfuel; [ lia | ].
  simpl. destruct (bytecode !! i) as [inst |] eqn:Hi; [ | eauto ].
  pose proof (Hall n) as Hn.
  destruct (parseInstrMapping lastInstr (instMapping instructions n)) as [m e].
  simpl in Hn. subst e. apply IH.
  apply lookup_lt_Some in Hi. pose proof (instLen_pos inst). lia.
Qed.

(** X17. When every source is marked with '~' or readable, and every record
    of the mapping string decodes over the zero record, the build returns
    an index: there is no other cause of failure, and the loop over the
    bytecode ends. *)
Theorem build_succeeds (fs : filesystem) (sources : list string)
    (bytecode : list byte) (sourceMap : string) :
  Forall (fun name => HasPrefix name "~" = true \/ is_Some (fs name)) sources ->
  Forall (fun r => snd (parseInstrMapping zeroInstr r) = None) (Split sourceMap ";") ->
  exists s, ParseSourceMap fs sources bytecode sourceMap = Some (Ok s).
Proof.
  intros Hsrc Hrec. unfold ParseSourceMap.
  destruct (indexSources_readable fs sources Hsrc 0 []) as [posData ->].
  destruct (expand_decodes (Split sourceMap ";") bytecode zeroInstr) with
    (fuel := S (length bytecode)) (i := 0%nat) (n := 0%nat)
    (instr := @nil InstrMapping) as [final ->]; [ | lia | eauto ].
  intros n. unfold instMapping.
  destruct (length (Split sourceMap ";") <=? n)%nat eqn:Hcmp; [ reflexivity | ].
  apply Nat.leb_gt in Hcmp. rewrite Forall_forall in Hrec. apply Hrec.
  unfold field. apply list_elem_of_In, nth_In. exact Hcmp.
Qed.

Lemma build_succeeds_witness :
  exists s, ParseSourceMap twofiles ["~gen"; "b.sol"]%string [x60; x01; x00] "0:1:1;;2:1:0:i"
            = Some (Ok s).
Proof.
  apply (build_succeeds twofiles ["~gen"; "b.sol"]%string [x60; x01; x00]
           "0:1:1;;2:1:0:i").
  - constructor; [ left; reflexivity | ].
    constructor; [ right; eexists; reflexivity | constructor ].
  - repeat (constructor; [ reflexivity | ]). constructor.
Defined.

(** * Further properties of the lookup *)

(** The position table of each source of a built index. *)
Lemma indexSources_entries (fs : filesystem) (sources : list string) :
  forall i posData final j name,
    indexSources fs i sources posData = Ok final ->
    sources !! j = Some name ->
    final !! (length posData + j)%nat
    = Some (if HasPrefix name "~" then None else option_map lineCols (fs name))
    /\ (HasPrefix name "~" = false -> is_Some (fs name)).
Proof.
  induction sources as [| s rest IH]; intros i posData final j name H Hj;
    [ rewrite lookup_nil in Hj; discriminate | ].
  simpl in H.
  assert (Hstep : indexSources fs (S i) rest
                    (posData ++ [if HasPrefix s "~" then None
                                 else option_map lineCols (fs s)]) = Ok final
                  /\ (HasPrefix s "~" = false -> is_Some (fs s))).
  { destruct (HasPrefix s "~"); [ split; [ exact H | discriminate ] | ].
    destruct (fs s) as [datStr |]; [ | discriminate ].
    split; [ exact H | eauto ]. }
  destruct Hstep as [Hrest Hread].
  destruct j as [| j]; simpl in Hj.
  - injection Hj as <-. split; [ | exact Hread ].
    apply indexSources_shape in Hrest as (_ & Hold & _).
    rewrite Nat.add_0_r, Hold by (rewrite length_app; simpl; lia).
    apply list_lookup_middle. reflexivity.
  - destruct (IH _ _ _ j name Hrest Hj) as [Hentry Hreadj].
    split; [ | exact Hreadj ].
    rewrite <- Hentry. f_equal. rewrite length_app. simpl. lia.
Qed.

Lemma built_tables (fs : filesystem) (sources : list string)
    (bytecode : list byte) (sourceMap : string) (s : SourceMap)
    (f : Z) (name : string) :
  ParseSourceMap fs sources bytecode sourceMap = Some (Ok s) ->
  sources !! Z.to_nat f = Some name ->
  Sources s !! Z.to_nat f = Some name
  /\ PosData s !! Z.to_nat f
     = Some (if HasPrefix name "~" then None else option_map lineCols (fs name))
  /\ (HasPrefix name "~" = false -> is_Some (fs name)).
Proof.
  intros H Hname. apply ParseSourceMap_Ok_inv in H as (Hsrc & Hpos & _).
  rewrite Hsrc. split; [ exact Hname | ].
  apply (indexSources_entries fs sources 0 [] (PosData s) _ name Hpos Hname).
Qed.

Lemma Info_in_file (s : SourceMap) (pc : N) (instr : InstrMapping)
    (source : string) :
  Instr s !! N.to_nat pc = Some instr ->
  0 <= F_ instr < int32 (Z.of_nat (length (Sources s))) ->
  Sources s !! Z.to_nat (F_ instr) = Some source ->
  Info s pc
  = if S_ instr <? 0 then Returns (source, 0, 0)
    else match PosData s !! Z.to_nat (F_ instr) with
         | None => Panics
         | Some None => Returns (source, 0, 0)
         | Some (Some tbl) =>
             match tbl !! Z.to_nat (S_ instr) with
             | None => Panics
             | Some lc => Returns (source, Line lc, Col lc)
             end
         end.
Proof.
  intros Hpc HF Hsrc. unfold Info. rewrite Hpc.
  destruct (F_ instr <? 0) eqn:Hneg; [ lia | ].
  destruct (int32 _ <=? F_ instr) eqn:Hcmp; [ lia | ].
  rewrite Hsrc. reflexivity.
Qed.

(** X18. Build, then look up: for a record whose file index names a
    readable source and whose start offset is within that file, [Info]
    returns the name of the source with the line and column that the table
    of the file's contents holds at that offset. *)
Theorem Info_resolves (fs : filesystem) (sources : list string)
    (bytecode : list byte) (sourceMap : string) (s : SourceMap)
    (pc : N) (instr : InstrMapping) (name datStr : string) (lc : LineCol) :
  ParseSourceMap fs sources bytecode sourceMap = Some (Ok s) ->
  Instr s !! N.to_nat pc = Some instr ->
  0 <= F_ instr < int32 (Z.of_nat (length sources)) ->
  sources !! Z.to_nat (F_ instr) = Some name ->
  HasPrefix name "~" = false ->
  fs name = Some datStr ->
  0 <= S_ instr ->
  lineCols datStr !! Z.to_nat (S_ instr) = Some lc ->
  Info s pc = Returns (name, Line lc, Col lc).
Proof.
  intros H Hpc HF Hname Hp Hfs HS Hlc.
  destruct (built_tables _ _ _ _ _ _ _ H Hname) as (Hsrc & Hpos & _).
  apply ParseSourceMap_Ok_inv in H as (Hsources & _ & _).
  rewrite (Info_in_file s pc instr name Hpc) by (rewrite ?Hsources; assumption).
  destruct (S_ instr <? 0) eqn:Hneg; [ lia | ].
  rewrite Hpos, Hp, Hfs. simpl. rewrite Hlc. reflexivity.
Qed.

Lemma Info_resolves_witness :
  let s := {| Sources := ["~gen"; "c.sol"]%string;
              PosData := [None; Some (lineCols abcd)];
              Instr := [ {| S_ := 4; L_ := 1; F_ := 1; J_ := x00; M_ := 0 |} ] |} in
  Info s 0 = Returns ("c.sol"%string, 2, 2).
Proof.
  intros s.
  apply (Info_resolves threefiles ["~gen"; "c.sol"]%string [x00] "4:1:1" s 0
           {| S_ := 4; L_ := 1; F_ := 1; J_ := x00; M_ := 0 |} "c.sol" abcd
           {| Line := 2; Col := 2 |}).
  - vm_compute. reflexivity.
  - reflexivity.
  - vm_compute. split; [ discriminate | reflexivity ].
  - reflexivity.
  - reflexivity.
  - reflexivity.
  - simpl. lia.
  - reflexivity.
Defined.

(** X19. For a record whose file index names a source marked with '~',
    [Info] returns the name with line and column zero, whatever the start
    offset is: the file has no table, and no panic is possible. *)
Theorem Info_marked_source (fs : filesystem) (sources : list string)
    (bytecode : list byte) (sourceMap : string) (s : SourceMap)
    (pc : N) (instr : InstrMapping) (name : string) :
  ParseSourceMap fs sources bytecode sourceMap = Some (Ok s) ->
  Instr s !! N.to_nat pc = Some instr ->
  0 <= F_ instr < int32 (Z.of_nat (length sources)) ->
  sources !! Z.to_nat (F_ instr) = Some name ->
  HasPrefix name "~" = true ->
  Info s pc = Returns (name, 0, 0).
Proof.
  intros H Hpc HF Hname Hp.
  destruct (built_tables _ _ _ _ _ _ _ H Hname) as (Hsrc & Hpos & _).
  apply ParseSourceMap_Ok_inv in H as (Hsources & _ & _).
  rewrite (Info_in_file s pc instr name Hpc) by (rewrite ?Hsources; assumption).
  rewrite Hpos, Hp. destruct (S_ instr <? 0); reflexivity.
Qed.

Lemma Info_marked_source_witness :
  let s := {| Sources := ["~gen"%string]; PosData := [None];
              Instr := [ {| S_ := 900; L_ := 1; F_ := 0; J_ := x00; M_ := 0 |} ] |} in
  Info s 0 = Returns ("~gen"%string, 0, 0).
Proof.
  intros s.
  apply (Info_marked_source nofiles ["~gen"%string] [x00] "900:1:0" s 0
           {| S_ := 900; L_ := 1; F_ := 0; J_ := x00; M_ := 0 |} "~gen").
  - vm_compute. reflexivity.
  - reflexivity.
  - vm_compute. split; [ discriminate | reflexivity ].
  - reflexivity.
  - reflexivity.
Defined.

(** X20. On a built index, [Info] at an in-range [pc] panics in one case
    only: the record names a readable source (not marked with '~') and
    its start offset is at or past the end of that file. *)
Theorem Info_panics_iff (fs : filesystem) (sources : list string)
    (bytecode : list byte) (sourceMap : string) (s : SourceMap)
    (pc : N) (instr : InstrMapping) :
  ParseSourceMap fs sources bytecode sourceMap = Some (Ok s) ->
  Instr s !! N.to_nat pc = Some instr ->
  Info s pc = Panics
  <-> exists name datStr,
        0 <= F_ instr < int32 (Z.of_nat (length sources))
        /\ sources !! Z.to_nat (F_ instr) = Some name
        /\ HasPrefix name "~" = false
        /\ fs name = Some datStr
        /\ Z.of_nat (String.length datStr) <= S_ instr.
Proof.
  intros H Hpc.
  pose proof (ParseSourceMap_Ok_inv _ _ _ _ _ H) as (Hsources & _ & _).
  split.
  - intros Hpanic.
    destruct (F_ instr <? 0) eqn:Hneg;
      [ unfold Info in Hpanic; rewrite Hpc, Hneg in Hpanic; discriminate | ].
    destruct (int32 (Z.of_nat (length sources)) <=? F_ instr) eqn:Hcmp;
      [ unfold Info in Hpanic; rewrite Hpc, Hneg, Hsources, Hcmp in Hpanic;
        discriminate | ].
    pose proof (int32_le (Z.of_nat (length sources)) ltac:(lia)) as Hle.
    destruct (lookup_lt_is_Some_2 sources (Z.to_nat (F_ instr)) ltac:(lia))
      as [name Hname].
    destruct (built_tables _ _ _ _ _ _ _ H Hname) as (Hsrc & Hpos & Hread).
    rewrite (Info_in_file s pc instr name Hpc) in Hpanic
      by (rewrite ?Hsources; first [ assumption | lia ]).
    destruct (S_ instr <? 0) eqn:HS; [ discriminate | ].
    rewrite Hpos in Hpanic.
    destruct (HasPrefix name "~") eqn:Hp; [ discriminate | ].
    destruct (Hread eq_refl) as [datStr Hfs]. rewrite Hfs in Hpanic. simpl in Hpanic.
    destruct (lineCols datStr !! Z.to_nat (S_ instr)) eqn:Hlc; [ discriminate | ].
    apply lookup_ge_None in Hlc. rewrite lineCols_length in Hlc.
    exists name, datStr. repeat split; try assumption; lia.
  - intros (name & datStr & HF & Hname & Hp & Hfs & HS).
    destruct (built_tables _ _ _ _ _ _ _ H Hname) as (Hsrc & Hpos & _).
    rewrite (Info_in_file s pc instr name Hpc) by (rewrite ?Hsources; assumption).
    destruct (S_ instr <? 0) eqn:Hneg; [ lia | ].
    rewrite Hpos, Hp, Hfs. simpl.
    rewrite (lookup_ge_None_2 (lineCols datStr)); [ reflexivity | ].
    rewrite lineCols_length. lia.
Qed.

Lemma Info_panics_iff_witness :
  let s := {| Sources := ["a.sol"%string];
              PosData := [Some [ {| Line := 1; Col := 0 |}; {| Line := 1; Col := 1 |} ]];
              Instr := [ {| S_ := 2; L_ := 1; F_ := 0; J_ := x00; M_ := 0 |} ] |} in
  Info s 0 = Panics.
Proof.
  intros s.
  apply (Info_panics_iff onefile ["a.sol"%string] [x00] "2:1:0" s 0
           {| S_ := 2; L_ := 1; F_ := 0; J_ := x00; M_ := 0 |}).
  - vm_compute. reflexivity.
  - reflexivity.
  - exists "a.sol"%string, "ab"%string. vm_compute.
    repeat split; first [ discriminate | reflexivity ].
Defined.

(** * Lines of code points *)

Lemma rangeFrom_length (t : string) :
  forall i skip, (length (Utf8.rangeFrom t i skip) <= String.length t)%nat.
Proof.
  induction t as [| c t IH]; intros i skip; simpl; [ lia | ].
  destruct skip as [| k]; [ | specialize (IH (S i) k); lia ].
  destruct (Utf8.decodeRune (String c t)) as [r w]. simpl.
  specialize (IH (S i) (Nat.pred w)). lia.
Qed.

Lemma indexBody_line (line last : Z) (out : list LineCol) (ib : nat * Z) :
  1 <= line -> line + 1 < 2 ^ 32 ->
  line <= fst (fst (indexBody (line, last, out) ib)) <= line + 1.
Proof.
  intros Hlo Hhi. destruct ib as [i b]. simpl.
  destruct (b =? asciiZ "010"); simpl; [ | lia ].
  unfold uint32. rewrite Z.mod_small by lia. lia.
Qed.

(** Every entry the loop writes has a line of 1 or more, as long as the
    line counter does not wrap. *)
Lemma fold_indexBody_written (l : list (nat * Z)) :
  forall line last out j,
    1 <= line -> line + Z.of_nat (length l) < 2 ^ 32 ->
    In j (map fst l) -> (j < length out)%nat ->
    exists lc, snd (fold_left indexBody l (line, last, out)) !! j = Some lc
               /\ 1 <= Line lc.
Proof.
  induction l as [| ib l IH]; intros line last out j Hlo Hhi Hin Hj;
    [ contradiction | ].
  cbn [fold_left]. cbn [length] in Hhi.
  pose proof (indexBody_line line last out ib Hlo ltac:(lia)) as Hline.
  pose proof (indexBody_out (line, last, out) ib) as Hout.
  destruct (indexBody (line, last, out) ib) as [[line' last'] out'] eqn:Hstep.
  simpl in Hline, Hout.
  destruct (in_dec Nat.eq_dec j (map fst l)) as [Hlater | Hnot].
  - apply IH; [ lia | lia | exact Hlater | subst out'; rewrite length_insert; exact Hj ].
  - destruct Hin as [Heq | Hin]; [ | contradiction ].
    rewrite fold_indexBody_other.
    + simpl. subst out' j. rewrite list_lookup_insert_eq by exact Hj.
      eexists. split; [ reflexivity | simpl; lia ].
    + apply Forall_forall. intros p Hp Hfst. apply Hnot.
      apply in_map_iff. exists p. split; [ exact Hfst | apply list_elem_of_In, Hp ].
Qed.

Lemma runeStart_true (s : string) (i : nat) :
  runeStart s i = true -> In i (map fst (Utf8.range s)).
Proof.
  unfold runeStart. intros H. apply existsb_exists in H as (p & Hp & Heq).
  apply Nat.eqb_eq in Heq. apply in_map_iff. exists p. auto.
Qed.

(** X21. In the table of a text below 4 GiB, of any encoding, the entry of a
    byte at which a code point starts has a line of 1 or more: a line of 0
    is left to the bytes inside a code point. *)
Theorem rune_start_has_line (datStr : string) (i : nat) :
  Z.of_nat (String.length datStr) < 2 ^ 32 - 1 ->
  runeStart datStr i = true ->
  exists lc, lineCols datStr !! i = Some lc /\ 1 <= Line lc.
Proof.
  intros Hsize Hstart. unfold lineCols.
  apply runeStart_true in Hstart as Hin.
  apply fold_indexBody_written; [ lia | | exact Hin | ].
  - pose proof (rangeFrom_length datStr 0 0). unfold Utf8.range. lia.
  - rewrite length_replicate.
    pose proof (rangeFrom_bounds datStr 0 0) as Hb. rewrite Forall_forall in Hb.
    apply in_map_iff in Hin as (p & <- & Hp).
    apply list_elem_of_In, Hb in Hp. lia.
Qed.

Lemma rune_start_has_line_witness :
  exists lc,
    lineCols (String "195" (String "169" (String ";" EmptyString))) !! 2%nat = Some lc
    /\ 1 <= Line lc.
Proof.
  apply (rune_start_has_line
           (String "195" (String "169" (String ";" EmptyString))) 2);
    [ simpl; lia | reflexivity ].
Defined.
